(** * Circuit Playground base class: a shallow embedding

    Source: [adafruit_circuitplayground/circuit_playground_base.py].

    The module is a facade over peripheral drivers.  The facade object is
    modelled as a record of its private attributes together with the store of
    [touchio.TouchIn] objects it has created and the chronological list of
    driver calls it has issued.  Methods are functions in a small
    state-and-exception monad.  The peripheral drivers themselves live outside
    the repository; what they answer is taken from a [Drivers] instance, as a
    function of the calls made so far. *)

From stdpp Require Import base numbers list strings gmap.

(** ** Python values that can be assigned to [detect_taps] *)

Inductive pyval : Type :=
| PyNone
| PyBool (b : bool)
| PyInt (z : Z)
| PyStr (s : string).

(** Python's [==] on these values; [True == 1] and [False == 0] hold. *)
Definition py_eq (x y : pyval) : bool :=
  match x, y with
  | PyNone, PyNone => true
  | PyBool a, PyBool b => Bool.eqb a b
  | PyInt a, PyInt b => (a =? b)%Z
  | PyBool a, PyInt b => (Z.b2z a =? b)%Z
  | PyInt a, PyBool b => (a =? Z.b2z b)%Z
  | PyStr a, PyStr b => String.eqb a b
  | _, _ => false
  end.

(** ** Board pins, touch objects, slots *)

(** The pins of [board] that [__init__] stores in [self._touches]. *)
Inductive pin : Type := A1 | A2 | A3 | A4 | A5 | A6 | TX.

#[export] Instance pin_eq_dec : EqDecision pin.
Proof. solve_decision. Defined.

(** The [digitalio.DigitalInOut] objects held by the facade. *)
Inductive digital : Type := BUTTON_A | BUTTON_B | SLIDE_SWITCH | D13.

(** Modelled from the spec: [touchio] is an external driver, of which the
    spec lists the capabilities "construct from pin, read boolean, get/set
    threshold".  A [touchio.TouchIn] object is the pin it was built from and
    its read/write integer [threshold] attribute. *)
Record TouchIn : Type := mkTouchIn { ti_pin : pin; threshold : Z }.

(** An element of the list [self._touches]: [None], a pin, or a reference to
    a [TouchIn] object in the store. *)
Inductive slot : Type :=
| SlotNone
| SlotPin (p : pin)
| SlotTouchIn (a : nat).

(** [isinstance(x, touchio.TouchIn)] *)
Definition isinstance_TouchIn (x : slot) : bool :=
  match x with SlotTouchIn _ => true | _ => false end.

(** ** Driver calls *)

Inductive event : Type :=
| EvTouchInNew (p : pin)                       (* touchio.TouchIn(pin) *)
| EvTouchInValue (a : nat)                     (* touch_in.value *)
| EvSetRange8G                                 (* lis3dh.range = RANGE_8_G *)
| EvSetTap (tap : pyval) (thr time_limit time_latency time_window : Z)
| EvTapped                                     (* lis3dh.tapped *)
| EvAcceleration                               (* lis3dh.acceleration *)
| EvShake (shake_threshold : Z)                (* lis3dh.shake(...) *)
| EvDigitalGet (d : digital)                   (* d.value *)
| EvDigitalSet (d : digital) (v : pyval)       (* d.value = v *)
| EvGetPressed                                 (* gamepad.get_pressed() *)
| EvTemperature                                (* thermistor.temperature *)
| EvAnalogValue.                               (* photocell AnalogIn.value *)

(** Modelled from the spec: the peripheral drivers are external
    collaborators, "treated as opaque capability interfaces".  This class is
    what they answer; each answer may depend on the whole history of calls
    issued before it. *)
Class Drivers : Type := {
  float : Type;
  touchin_initial_threshold : pin -> list event -> Z;
  touchin_value : pin -> Z -> list event -> bool;
  lis3dh_tapped : list event -> bool;
  lis3dh_acceleration : list event -> float * float * float;
  lis3dh_shake : Z -> list event -> bool;
  digital_value : digital -> list event -> bool;
  gamepad_get_pressed : list event -> Z;
  thermistor_temperature : list event -> float;
  analogin_value : list event -> Z
}.

(** ** The facade object *)

Record CircuitPlaygroundBase : Type := mkCP {
  _touches : list slot;
  _touch_threshold_adjustment : Z;
  _detect_taps : pyval;
  objects : list TouchIn;      (* store of TouchIn objects, by reference *)
  calls : list event           (* driver calls so far, oldest first *)
}.

Definition set_touches (l : list slot) (s : CircuitPlaygroundBase) :=
  mkCP l (_touch_threshold_adjustment s) (_detect_taps s) (objects s) (calls s).
Definition set_adjustment (z : Z) (s : CircuitPlaygroundBase) :=
  mkCP (_touches s) z (_detect_taps s) (objects s) (calls s).
Definition set_detect (v : pyval) (s : CircuitPlaygroundBase) :=
  mkCP (_touches s) (_touch_threshold_adjustment s) v (objects s) (calls s).
Definition set_objects (o : list TouchIn) (s : CircuitPlaygroundBase) :=
  mkCP (_touches s) (_touch_threshold_adjustment s) (_detect_taps s) o (calls s).
Definition log (e : event) (s : CircuitPlaygroundBase) :=
  mkCP (_touches s) (_touch_threshold_adjustment s) (_detect_taps s)
       (objects s) (calls s ++ [e]).

(** ** Exceptions and the method monad *)

Inductive exn : Type :=
| IndexError          (* list index out of range *)
| TypeError           (* TouchIn(x) with x not a pin *)
| AttributeError      (* .threshold / .value on something that is no TouchIn *)
| InvalidReference.   (* reference outside the object store; Python cannot
                         produce one, and no state of the object holds one,
                         see [wf_ref] and [reachable_wf] *)

Inductive result (A : Type) : Type :=
| Ok (a : A) (s : CircuitPlaygroundBase)
| Raise (e : exn) (s : CircuitPlaygroundBase).
Arguments Ok {A} a s.
Arguments Raise {A} e s.

Definition M (A : Type) : Type := CircuitPlaygroundBase -> result A.

Definition ret {A} (a : A) : M A := fun s => Ok a s.
Definition bind {A B} (m : M A) (k : A -> M B) : M B :=
  fun s => match m s with
           | Ok a s' => k a s'
           | Raise e s' => Raise e s'
           end.
Definition gets {A} (f : CircuitPlaygroundBase -> A) : M A := fun s => Ok (f s) s.
Definition modify (f : CircuitPlaygroundBase -> CircuitPlaygroundBase) : M unit :=
  fun s => Ok tt (f s).

Notation "x <~ m ;; k" := (bind m (fun x => k))
  (at level 100, m at next level, right associativity).
Notation "m ;;; k" := (bind m (fun _ => k))
  (at level 100, right associativity).

(** The state a call leaves behind, whether it returned or raised. *)
Definition state_of {A} (r : result A) : CircuitPlaygroundBase :=
  match r with Ok _ s => s | Raise _ s => s end.

Definition value_of {A} (r : result A) : option A :=
  match r with Ok a _ => Some a | Raise _ _ => None end.

(** ** Python list subscripts *)

(** [l[i]] for a list of length [n]: negative subscripts count from the end,
    anything outside [-n, n) is an [IndexError]. *)
Definition py_index (n : nat) (i : Z) : option nat :=
  if ((0 <=? i) && (i <? Z.of_nat n))%Z then Some (Z.to_nat i)
  else if ((- Z.of_nat n <=? i) && (i <? 0))%Z then Some (Z.to_nat (Z.of_nat n + i))
  else None.

(** [self._touches[i]] *)
Definition touches_getitem (i : Z) : M slot :=
  fun s => match py_index (length (_touches s)) i with
           | Some k => match _touches s !! k with
                       | Some x => Ok x s
                       | None => Raise IndexError s
                       end
           | None => Raise IndexError s
           end.

(** [self._touches[i] = x] *)
Definition touches_setitem (i : Z) (x : slot) : M unit :=
  fun s => match py_index (length (_touches s)) i with
           | Some k => Ok tt (set_touches (<[k := x]> (_touches s)) s)
           | None => Raise IndexError s
           end.

(** ** Photocell *)

(** [Photocell.light]: [self._photocell.value * 330 // (2 ** 16)], on the raw
    sample [value].  Python's [//] rounds toward minus infinity, as [Z.div]
    does for a positive divisor. *)
Definition Photocell_light (value : Z) : Z := (value * 330 / 2 ^ 16)%Z.

(** ** Button decoding in [were_pressed] *)

(** The loop [for button, mask in (('A', 0x01), ('B', 0x02))] on the set
    [ret], for the polled bitmask [pressed]. *)
Fixpoint were_pressed_loop (table : list (string * Z)) (pressed : Z)
    (ret : gset string) : gset string :=
  match table with
  | [] => ret
  | (button, mask) :: rest =>
      were_pressed_loop rest pressed
        (if (Z.land mask pressed =? 0)%Z then ret else ret ∪ {[ button ]})
  end.

Definition button_masks : list (string * Z) := [("A", 1%Z); ("B", 2%Z)].

Definition decode_pressed (pressed : Z) : gset string :=
  were_pressed_loop button_masks pressed ∅.

(** ** Values returned by the public operations *)

Section Methods.
Context `{HW : Drivers}.

Inductive retval : Type :=
| RUnit
| RBool (b : bool)
| RInt (z : Z)
| RVal (v : pyval)
| RFloat (x : float)
| RTriple (xyz : float * float * float)
| RSet (st : gset string)
| RPixels.

(** ** touchio.TouchIn *)

(** [touchio.TouchIn(x)]: a new object in the store, with the threshold the
    driver chooses; anything but a pin is rejected. *)
Definition TouchIn_new (x : slot) : M slot :=
  fun s => match x with
           | SlotPin p =>
               let o := mkTouchIn p (touchin_initial_threshold p (calls s)) in
               Ok (SlotTouchIn (length (objects s)))
                  (log (EvTouchInNew p) (set_objects (objects s ++ [o]) s))
           | _ => Raise TypeError s
           end.

(** [x.threshold += d] *)
Definition threshold_iadd (x : slot) (d : Z) : M unit :=
  fun s => match x with
           | SlotTouchIn a =>
               match objects s !! a with
               | Some o =>
                   Ok tt (set_objects
                            (<[a := mkTouchIn (ti_pin o) (threshold o + d)]> (objects s)) s)
               | None => Raise InvalidReference s
               end
           | _ => Raise AttributeError s
           end.

(** [x.value] *)
Definition TouchIn_value (x : slot) : M bool :=
  fun s => match x with
           | SlotTouchIn a =>
               match objects s !! a with
               | Some o =>
                   Ok (touchin_value (ti_pin o) (threshold o) (calls s))
                      (log (EvTouchInValue a) s)
               | None => Raise InvalidReference s
               end
           | _ => Raise AttributeError s
           end.

(** ** CircuitPlaygroundBase._touch *)

Definition _touch (i : Z) : M bool :=
  x <~ touches_getitem i ;;
  (if negb (isinstance_TouchIn x) then
     pin_ <~ touches_getitem i ;;
     obj <~ TouchIn_new pin_ ;;
     touches_setitem i obj ;;;
     t <~ touches_getitem i ;;
     adj <~ gets _touch_threshold_adjustment ;;
     threshold_iadd t adj
   else ret tt) ;;;
  t <~ touches_getitem i ;;
  TouchIn_value t.

(** The seven touch properties. *)
Definition touch_A1 : M bool := _touch 1.
Definition touch_A2 : M bool := _touch 2.
Definition touch_A3 : M bool := _touch 3.
Definition touch_A4 : M bool := _touch 4.
Definition touch_A5 : M bool := _touch 5.
Definition touch_A6 : M bool := _touch 6.
Definition touch_TX : M bool := _touch 7.

(** ** CircuitPlaygroundBase.adjust_touch_threshold *)

(** [for touch_in in self._touches: if isinstance(...): touch_in.threshold += adjustment] *)
Fixpoint adjust_loop (l : list slot) (adjustment : Z) : M unit :=
  match l with
  | [] => ret tt
  | touch_in :: rest =>
      (if isinstance_TouchIn touch_in then threshold_iadd touch_in adjustment
       else ret tt) ;;;
      adjust_loop rest adjustment
  end.

Definition adjust_touch_threshold (adjustment : Z) : M unit :=
  l <~ gets _touches ;;
  adjust_loop l adjustment ;;;
  modify (fun s => set_adjustment (_touch_threshold_adjustment s + adjustment) s).

(** ** detect_taps *)

Definition detect_taps_get : M pyval := gets _detect_taps.

Definition lis3dh_set_tap (tap : pyval) (thr time_limit time_latency time_window : Z) : M unit :=
  modify (log (EvSetTap tap thr time_limit time_latency time_window)).

Definition detect_taps_set (value : pyval) : M unit :=
  modify (set_detect value) ;;;
  (if py_eq value (PyInt 1) then lis3dh_set_tap value 90 4 50 255 else ret tt) ;;;
  (if py_eq value (PyInt 2) then lis3dh_set_tap value 60 10 50 255 else ret tt).

(** ** Pass-through properties *)

Definition tapped : M bool :=
  fun s => Ok (lis3dh_tapped (calls s)) (log EvTapped s).

Definition acceleration : M (float * float * float) :=
  fun s => Ok (lis3dh_acceleration (calls s)) (log EvAcceleration s).

Definition shake (shake_threshold : Z) : M bool :=
  fun s => Ok (lis3dh_shake shake_threshold (calls s)) (log (EvShake shake_threshold) s).

Definition digital_get (d : digital) : M bool :=
  fun s => Ok (digital_value d (calls s)) (log (EvDigitalGet d) s).

Definition button_a : M bool := digital_get BUTTON_A.
Definition button_b : M bool := digital_get BUTTON_B.
Definition switch : M bool := digital_get SLIDE_SWITCH.
Definition red_led_get : M bool := digital_get D13.
Definition red_led_set (value : pyval) : M unit := modify (log (EvDigitalSet D13 value)).

Definition were_pressed : M (gset string) :=
  fun s => Ok (decode_pressed (gamepad_get_pressed (calls s))) (log EvGetPressed s).

Definition temperature : M float :=
  fun s => Ok (thermistor_temperature (calls s)) (log EvTemperature s).

Definition light : M Z :=
  fun s => Ok (Photocell_light (analogin_value (calls s))) (log EvAnalogValue s).

(** ** __init__ *)

(** The attributes before the last statement of [__init__]; constructing the
    peripheral objects issues no call that is recorded, setting the
    accelerometer range does. *)
Definition init_attributes : CircuitPlaygroundBase :=
  mkCP [SlotNone; SlotPin A1; SlotPin A2; SlotPin A3; SlotPin A4; SlotPin A5;
        SlotPin A6; SlotPin TX]
       0 (PyInt 1) [] [EvSetRange8G].

(** [__init__] ends with [self.detect_taps = 1], which goes through the setter. *)
Definition init : CircuitPlaygroundBase :=
  state_of (detect_taps_set (PyInt 1) init_attributes).

(** ** The public interface as a type of operations *)

Inductive pad : Type := PadA1 | PadA2 | PadA3 | PadA4 | PadA5 | PadA6 | PadTX.

#[export] Instance pad_eq_dec : EqDecision pad.
Proof. solve_decision. Defined.

Definition pad_index (p : pad) : Z :=
  match p with
  | PadA1 => 1 | PadA2 => 2 | PadA3 => 3 | PadA4 => 4
  | PadA5 => 5 | PadA6 => 6 | PadTX => 7
  end%Z.

Definition pad_pin (p : pad) : pin :=
  match p with
  | PadA1 => A1 | PadA2 => A2 | PadA3 => A3 | PadA4 => A4
  | PadA5 => A5 | PadA6 => A6 | PadTX => TX
  end.

Definition touch (p : pad) : M bool :=
  match p with
  | PadA1 => touch_A1 | PadA2 => touch_A2 | PadA3 => touch_A3
  | PadA4 => touch_A4 | PadA5 => touch_A5 | PadA6 => touch_A6
  | PadTX => touch_TX
  end.

Inductive op : Type :=
| OpTouch (p : pad)
| OpAdjustTouchThreshold (adjustment : Z)
| OpDetectTapsGet
| OpDetectTapsSet (value : pyval)
| OpTapped
| OpAcceleration
| OpShake (shake_threshold : Z)
| OpPixels
| OpButtonA
| OpButtonB
| OpWerePressed
| OpSwitch
| OpTemperature
| OpLight
| OpRedLedGet
| OpRedLedSet (value : pyval).

Definition fmap_M {A B} (f : A -> B) (m : M A) : M B := x <~ m ;; ret (f x).

Definition call (o : op) : M retval :=
  match o with
  | OpTouch p => fmap_M RBool (touch p)
  | OpAdjustTouchThreshold d => fmap_M (fun _ => RUnit) (adjust_touch_threshold d)
  | OpDetectTapsGet => fmap_M RVal detect_taps_get
  | OpDetectTapsSet v => fmap_M (fun _ => RUnit) (detect_taps_set v)
  | OpTapped => fmap_M RBool tapped
  | OpAcceleration => fmap_M RTriple acceleration
  | OpShake t => fmap_M RBool (shake t)
  | OpPixels => ret RPixels
  | OpButtonA => fmap_M RBool button_a
  | OpButtonB => fmap_M RBool button_b
  | OpWerePressed => fmap_M RSet were_pressed
  | OpSwitch => fmap_M RBool switch
  | OpTemperature => fmap_M RFloat temperature
  | OpLight => fmap_M RInt light
  | OpRedLedGet => fmap_M RBool red_led_get
  | OpRedLedSet v => fmap_M (fun _ => RUnit) (red_led_set v)
  end.

(** Running a script of operations; an exception leaves the object as the
    failing call left it and the script goes on, as after [try/except]. *)
Definition exec (script : list op) (s : CircuitPlaygroundBase) : CircuitPlaygroundBase :=
  foldl (fun st o => state_of (call o st)) s script.

(** The states the object can be in: [init], then any script. *)
Inductive reachable : CircuitPlaygroundBase -> Prop :=
| reachable_init : reachable init
| reachable_call s o : reachable s -> reachable (state_of (call o s)).

(** ** Observations used in the statements *)

(** The index of a pad in [self._touches], as a position. *)
Definition pad_slot (p : pad) : nat := Z.to_nat (pad_index p).

(** What the list holds for a pad. *)
Definition slot_of (s : CircuitPlaygroundBase) (p : pad) : option slot :=
  _touches s !! pad_slot p.

(** The threshold of the [TouchIn] held at position [k] of the list, if
    there is one. *)
Definition threshold_at (s : CircuitPlaygroundBase) (k : nat) : option Z :=
  match _touches s !! k with
  | Some (SlotTouchIn a) => threshold <$> objects s !! a
  | _ => None
  end.

(** The threshold of the [TouchIn] a pad is bound to, if it is bound. *)
Definition bound_threshold (s : CircuitPlaygroundBase) (p : pad) : option Z :=
  threshold_at s (pad_slot p).

(** The state after the first read of a pad: the pin at position [k] is
    replaced by a reference to a new [TouchIn] for pin [p], whose threshold is
    the driver's initial one plus the adjustment recorded so far. *)
Definition bind_pad (k : nat) (p : pin) (s : CircuitPlaygroundBase) :
    CircuitPlaygroundBase :=
  let t := (touchin_initial_threshold p (calls s)
            + _touch_threshold_adjustment s)%Z in
  mkCP (<[k := SlotTouchIn (length (objects s))]> (_touches s))
       (_touch_threshold_adjustment s) (_detect_taps s)
       (objects s ++ [mkTouchIn p t])
       (calls s ++ [EvTouchInNew p; EvTouchInValue (length (objects s))]).

(** The same object with something else stored in the unused slot 0. *)
Definition with_slot0 (x : slot) (s : CircuitPlaygroundBase) :
    CircuitPlaygroundBase :=
  set_touches (<[0 := x]> (_touches s)) s.

Definition map_state {A} (f : CircuitPlaygroundBase -> CircuitPlaygroundBase)
    (r : result A) : result A :=
  match r with
  | Ok a s => Ok a (f s)
  | Raise e s => Raise e (f s)
  end.

(** The sum of the adjustments a script asks for. *)
Fixpoint adjustments (script : list op) : Z :=
  match script with
  | [] => 0
  | OpAdjustTouchThreshold d :: rest => d + adjustments rest
  | _ :: rest => adjustments rest
  end%Z.

(** Whether a script reads a given pad. *)
Fixpoint reads_pad (p : pad) (script : list op) : bool :=
  match script with
  | [] => false
  | OpTouch q :: rest => bool_decide (p = q) || reads_pad p rest
  | _ :: rest => reads_pad p rest
  end.

(** How often [touchio.TouchIn(p)] has been called in a history. *)
Fixpoint constructions (p : pin) (h : list event) : nat :=
  match h with
  | [] => 0
  | EvTouchInNew q :: h' =>
      (if decide (p = q) then 1 else 0) + constructions p h'
  | _ :: h' => constructions p h'
  end.

(** How often a list refers to the object at [a]. *)
Fixpoint count_ref (a : nat) (l : list slot) : Z :=
  match l with
  | [] => 0
  | SlotTouchIn b :: l' => (if decide (a = b) then 1 else 0) + count_ref a l'
  | _ :: l' => count_ref a l'
  end%Z.

(** No pad is bound. *)
Definition none_bound (s : CircuitPlaygroundBase) : Prop :=
  Forall (fun x => isinstance_TouchIn x = false) (_touches s).

(** The shape every state of the object has (see [reachable_wf]). *)
Definition slot_ok (s : CircuitPlaygroundBase) (p : pad) : Prop :=
  (slot_of s p = Some (SlotPin (pad_pin p))
   /\ constructions (pad_pin p) (calls s) = 0)
  \/ (exists a o, slot_of s p = Some (SlotTouchIn a)
                  /\ objects s !! a = Some o
                  /\ ti_pin o = pad_pin p
                  /\ constructions (pad_pin p) (calls s) = 1).

Record wf (s : CircuitPlaygroundBase) : Prop := mkWf {
  wf_length : length (_touches s) = 8;
  wf_slot0 : _touches s !! 0 = Some SlotNone;
  wf_pads : forall p, slot_ok s p;
  wf_ref : forall k a, _touches s !! k = Some (SlotTouchIn a) ->
                       a < length (objects s);
  wf_inj : forall j k a, _touches s !! j = Some (SlotTouchIn a) ->
                         _touches s !! k = Some (SlotTouchIn a) -> j = k
}.

(** ** Further observations *)

(** The [lis3dh.set_tap] calls of a history, in order. *)
Fixpoint set_tap_calls (h : list event) : list event :=
  match h with
  | [] => []
  | EvSetTap t a b c d :: h' => EvSetTap t a b c d :: set_tap_calls h'
  | _ :: h' => set_tap_calls h'
  end.

(** The accelerometer configuration that goes with a tap-detection value:
    the single-tap one for a value equal to 1, the double-tap one for a value
    equal to 2, none for any other. *)
Definition tap_config (value : pyval) : list event :=
  if py_eq value (PyInt 1) then [EvSetTap value 90 4 50 255]
  else if py_eq value (PyInt 2) then [EvSetTap value 60 10 50 255]
  else [].

(** The configurations that go with the assignments to [detect_taps] in a
    script, in order. *)
Fixpoint script_tap_configs (script : list op) : list event :=
  match script with
  | [] => []
  | OpDetectTapsSet v :: rest => tap_config v ++ script_tap_configs rest
  | _ :: rest => script_tap_configs rest
  end.

(** The value last assigned to [detect_taps] by a script, [current] if it
    assigns none. *)
Fixpoint last_assigned (script : list op) (current : pyval) : pyval :=
  match script with
  | [] => current
  | OpDetectTapsSet v :: rest => last_assigned rest v
  | _ :: rest => last_assigned rest current
  end.

(** The operations that only hand a request on to a driver. *)
Definition passthrough (o : op) : bool :=
  match o with
  | OpTouch _ | OpAdjustTouchThreshold _ | OpDetectTapsSet _ => false
  | _ => true
  end.

(** The calls that construct or configure a driver. *)
Definition configures (e : event) : bool :=
  match e with
  | EvTouchInNew _ | EvSetRange8G | EvSetTap _ _ _ _ _ => true
  | _ => false
  end.

(** How many [touchio.TouchIn] objects a history has constructed, for any
    pin. *)
Fixpoint touchin_constructions (h : list event) : nat :=
  match h with
  | [] => 0
  | EvTouchInNew _ :: h' => S (touchin_constructions h')
  | _ :: h' => touchin_constructions h'
  end.

Definition all_pads : list pad :=
  [PadA1; PadA2; PadA3; PadA4; PadA5; PadA6; PadTX].

(** How many different pads a script reads. *)
Definition pads_read (script : list op) : nat :=
  length (List.filter (fun p => reads_pad p script) all_pads).

(** Every bound pad's threshold is the one its driver started with, at the
    point of the history where it was constructed, plus the accumulator. *)
Definition thresholds_tracked (s : CircuitPlaygroundBase) : Prop :=
  forall p a o,
    slot_of s p = Some (SlotTouchIn a) -> objects s !! a = Some o ->
    exists h rest,
      calls s = h ++ EvTouchInNew (pad_pin p) :: rest
      /\ threshold o = (touchin_initial_threshold (pad_pin p) h
                        + _touch_threshold_adjustment s)%Z.

End Methods.

(** ** A concrete set of drivers, for running the model *)

(** Touch thresholds start at 100 above a per-pin idle reading; a pad reads
    as touched when its threshold is below 1500; the other sensors answer
    from the length of the history. *)
Definition bench_pin_idle (p : pin) : Z :=
  match p with
  | A1 => 1000 | A2 => 1010 | A3 => 1020 | A4 => 1030
  | A5 => 1040 | A6 => 1050 | TX => 1060
  end%Z.

Definition bench : Drivers := {|
  float := Z;
  touchin_initial_threshold := fun p _ => (bench_pin_idle p + 100)%Z;
  touchin_value := fun _ t _ => (t <? 1500)%Z;
  lis3dh_tapped := fun h => Nat.even (length h);
  lis3dh_acceleration := fun _ => (0, 0, 9)%Z;
  lis3dh_shake := fun t _ => (t <? 10)%Z;
  digital_value := fun _ h => Nat.odd (length h);
  gamepad_get_pressed := fun h => (Z.of_nat (length h) mod 4)%Z;
  thermistor_temperature := fun _ => 25%Z;
  analogin_value := fun h => (1000 * Z.of_nat (length h))%Z
|}.

(** * Properties *)

Section Properties.
Context `{HW : Drivers}.
Implicit Types (s : CircuitPlaygroundBase) (p : pad) (i : Z) (k a : nat).

Lemma py_index_nonneg n i :
  (0 <= i < Z.of_nat n)%Z -> py_index n i = Some (Z.to_nat i).
Proof.
  intros [H0 H1]. unfold py_index.
  destruct (0 <=? i)%Z eqn:E0; [|lia].
  destruct (i <? Z.of_nat n)%Z eqn:E1; [reflexivity|lia].
Qed.

Lemma py_index_lt n i k : py_index n i = Some k -> k < n.
Proof.
  unfold py_index.
  destruct ((0 <=? i) && (i <? Z.of_nat n))%Z eqn:E.
  - intros [= <-]. lia.
  - destruct ((- Z.of_nat n <=? i) && (i <? 0))%Z eqn:E'; [|discriminate].
    intros [= <-]. lia.
Qed.

Lemma pad_index_range p : (1 <= pad_index p <= 7)%Z.
Proof. destruct p; simpl; lia. Qed.

Lemma pad_slot_range p : 1 <= pad_slot p <= 7.
Proof. destruct p; unfold pad_slot; simpl; lia. Qed.

Lemma touch_eq p : touch p = _touch (pad_index p).
Proof. destruct p; reflexivity. Qed.

Lemma pad_index_complete i :
  (1 <= i <= 7)%Z -> exists p, pad_index p = i.
Proof.
  intros Hi.
  assert (i = 1 \/ i = 2 \/ i = 3 \/ i = 4 \/ i = 5 \/ i = 6 \/ i = 7)%Z
    as [->|[->|[->|[->|[->|[->| ->]]]]]] by lia;
    [exists PadA1|exists PadA2|exists PadA3|exists PadA4|exists PadA5
    |exists PadA6|exists PadTX]; reflexivity.
Qed.

Lemma pad_slot_inj p q : pad_slot p = pad_slot q -> p = q.
Proof. destruct p, q; unfold pad_slot; simpl; intros; (reflexivity || lia). Qed.

(** *** Closed forms of [_touch] *)

Lemma _touch_bound s i k a o :
  py_index (length (_touches s)) i = Some k ->
  _touches s !! k = Some (SlotTouchIn a) ->
  objects s !! a = Some o ->
  _touch i s = Ok (touchin_value (ti_pin o) (threshold o) (calls s))
                  (log (EvTouchInValue a) s).
Proof.
  intros Hi Hk Ha.
  unfold _touch, bind, touches_getitem, TouchIn_value, ret.
  rewrite Hi, Hk. simpl. rewrite Hi, Hk, Ha. reflexivity.
Qed.

Lemma _touch_unbound s i k q :
  py_index (length (_touches s)) i = Some k ->
  _touches s !! k = Some (SlotPin q) ->
  _touch i s =
    Ok (touchin_value q
          (touchin_initial_threshold q (calls s) + _touch_threshold_adjustment s)
          (calls s ++ [EvTouchInNew q]))
       (bind_pad k q s).
Proof.
  intros Hi Hk. pose proof (py_index_lt _ _ _ Hi) as Hlt.
  unfold _touch, bind, touches_getitem, touches_setitem, TouchIn_new,
    threshold_iadd, TouchIn_value, gets, ret, bind_pad, log, set_objects,
    set_touches.
  rewrite Hi, Hk. simpl. rewrite Hi, Hk. simpl. rewrite Hi. simpl.
  rewrite !length_insert, Hi, !list_lookup_insert_eq by exact Hlt.
  simpl. rewrite list_lookup_middle by reflexivity. simpl.
  rewrite length_insert, Hi, list_lookup_insert_eq by exact Hlt.
  rewrite insert_app_r_alt by lia. rewrite Nat.sub_diag. simpl.
  rewrite list_lookup_middle by reflexivity. simpl.
  rewrite <- app_assoc. reflexivity.
Qed.

Lemma _touch_none s i k :
  py_index (length (_touches s)) i = Some k ->
  _touches s !! k = Some SlotNone ->
  _touch i s = Raise TypeError s.
Proof.
  intros Hi Hk. unfold _touch, bind, touches_getitem, TouchIn_new.
  rewrite Hi, Hk. simpl. rewrite Hi, Hk. reflexivity.
Qed.

Lemma _touch_index_error s i :
  py_index (length (_touches s)) i = None ->
  _touch i s = Raise IndexError s.
Proof.
  intros Hi. unfold _touch, bind, touches_getitem. rewrite Hi. reflexivity.
Qed.


(** *** The loop of [adjust_touch_threshold] *)

Lemma set_objects_id s : set_objects (objects s) s = s.
Proof. destruct s; reflexivity. Qed.

Lemma TouchIn_eta (o : TouchIn) : mkTouchIn (ti_pin o) (threshold o) = o.
Proof. destruct o; reflexivity. Qed.

Lemma adjust_loop_ok l d s :
  (forall k a, l !! k = Some (SlotTouchIn a) -> a < length (objects s)) ->
  exists objs,
    adjust_loop l d s = Ok tt (set_objects objs s)
    /\ length objs = length (objects s)
    /\ forall a o, objects s !! a = Some o ->
         objs !! a = Some (mkTouchIn (ti_pin o) (threshold o + d * count_ref a l)).
Proof.
  revert s. induction l as [|x l IH]; intros s Href.
  - exists (objects s). rewrite set_objects_id. split; [reflexivity|].
    split; [reflexivity|]. intros a o Ha. simpl.
    rewrite Z.mul_0_r, Z.add_0_r, TouchIn_eta. exact Ha.
  - assert (Hl : forall k a, l !! k = Some (SlotTouchIn a) -> a < length (objects s)).
    { intros k a Hk. apply (Href (S k) a). exact Hk. }
    destruct x as [|q|b].
    + destruct (IH s Hl) as (objs & Hrun & Hlen & Hget).
      exists objs. split; [|split]; [exact Hrun|exact Hlen|exact Hget].
    + destruct (IH s Hl) as (objs & Hrun & Hlen & Hget).
      exists objs. split; [|split]; [exact Hrun|exact Hlen|exact Hget].
    + assert (Hb : b < length (objects s)) by (apply (Href 0 b); reflexivity).
      destruct (lookup_lt_is_Some_2 _ _ Hb) as [ob Hob].
      set (s1 := set_objects
                   (<[b := mkTouchIn (ti_pin ob) (threshold ob + d)]> (objects s)) s).
      destruct (IH s1) as (objs & Hrun & Hlen & Hget).
      { intros k a Hk. subst s1. simpl. rewrite length_insert. eapply Hl, Hk. }
      exists objs. split; [|split].
      * simpl. unfold bind, threshold_iadd at 1. rewrite Hob. fold s1.
        rewrite Hrun. reflexivity.
      * rewrite Hlen. subst s1. simpl. apply length_insert.
      * intros a o Ha. simpl. destruct (decide (a = b)) as [->|Hne].
        -- rewrite Hob in Ha. injection Ha as <-.
           rewrite (Hget b (mkTouchIn (ti_pin ob) (threshold ob + d))).
           ++ simpl. f_equal; f_equal; lia.
           ++ subst s1. simpl. apply list_lookup_insert_eq. exact Hb.
        -- rewrite (Hget a o).
           ++ f_equal; f_equal; lia.
           ++ subst s1. simpl. rewrite list_lookup_insert_ne by congruence. exact Ha.
Qed.

Lemma count_ref_absent a l :
  (forall k, l !! k <> Some (SlotTouchIn a)) -> count_ref a l = 0%Z.
Proof.
  induction l as [|x l IH]; intros Hno; [reflexivity|].
  assert (IH' : count_ref a l = 0%Z) by (apply IH; intros k; apply (Hno (S k))).
  destruct x as [|q|b]; simpl; try exact IH'.
  destruct (decide (a = b)) as [->|_]; [|lia].
  exfalso. apply (Hno 0). reflexivity.
Qed.

Lemma count_ref_unique a l k :
  l !! k = Some (SlotTouchIn a) ->
  (forall j, l !! j = Some (SlotTouchIn a) -> j = k) ->
  count_ref a l = 1%Z.
Proof.
  revert k. induction l as [|x l IH]; intros k Hk Huniq; [discriminate|].
  destruct k as [|k].
  - simpl in Hk. injection Hk as ->. simpl.
    rewrite decide_True by reflexivity.
    rewrite count_ref_absent; [reflexivity|].
    intros j Hj. specialize (Huniq (S j) Hj). discriminate.
  - simpl in Hk.
    assert (IH' : count_ref a l = 1%Z).
    { apply (IH k Hk). intros j Hj. specialize (Huniq (S j) Hj). lia. }
    destruct x as [|q|b]; simpl; try exact IH'.
    destruct (decide (a = b)) as [->|_]; [|lia].
    specialize (Huniq 0 eq_refl). discriminate.
Qed.

Lemma adjust_loop_none_bound l d s :
  Forall (fun x => isinstance_TouchIn x = false) l ->
  adjust_loop l d s = Ok tt s.
Proof.
  induction 1 as [|x l Hx _ IH]; [reflexivity|].
  simpl. unfold bind. rewrite Hx. simpl. exact IH.
Qed.


(** *** Histories *)

Lemma constructions_app q h h' :
  constructions q (h ++ h') = constructions q h + constructions q h'.
Proof.
  induction h as [|e h IH]; [reflexivity|].
  destruct e; simpl; rewrite IH; lia.
Qed.

Lemma constructions_snoc_other q h e :
  (forall q', e <> EvTouchInNew q') ->
  constructions q (h ++ [e]) = constructions q h.
Proof.
  intros He. rewrite constructions_app.
  destruct e; simpl; try lia. exfalso. eapply He. reflexivity.
Qed.

Lemma pad_pin_inj p q : pad_pin p = pad_pin q -> p = q.
Proof. destruct p, q; simpl; intros; (reflexivity || discriminate). Qed.

Lemma lookup_insert_cases {A} (l : list A) k j x y :
  <[k := x]> l !! j = Some y ->
  (j = k /\ y = x) \/ (j <> k /\ l !! j = Some y).
Proof.
  intros H. destruct (decide (j = k)) as [->|Hne].
  - left. split; [reflexivity|].
    assert (Hlt : k < length l).
    { apply lookup_lt_Some in H. rewrite length_insert in H. exact H. }
    rewrite list_lookup_insert_eq in H by exact Hlt. congruence.
  - right. split; [exact Hne|].
    rewrite list_lookup_insert_ne in H by congruence. exact H.
Qed.

(** *** The invariant *)

Lemma wf_init : wf init.
Proof.
  split.
  - reflexivity.
  - reflexivity.
  - intros p. left. destruct p; split; reflexivity.
  - intros k a Hk. exfalso.
    do 8 (destruct k as [|k]; [discriminate|]). discriminate.
  - intros j k a Hj. exfalso.
    do 8 (destruct j as [|j]; [discriminate|]). discriminate.
Qed.

Lemma wf_same_touch s s' :
  _touches s' = _touches s ->
  (forall a o, objects s !! a = Some o ->
     exists o', objects s' !! a = Some o' /\ ti_pin o' = ti_pin o) ->
  length (objects s') = length (objects s) ->
  (forall q, constructions q (calls s') = constructions q (calls s)) ->
  wf s -> wf s'.
Proof.
  intros Ht Ho Hlen Hc [W1 W2 W3 W4 W5].
  split; try rewrite Ht; try assumption.
  - intros p. unfold slot_ok, slot_of. rewrite Ht, Hc.
    destruct (W3 p) as [Hp|(a & o & Hs & Ha & Hpin & Hn)]; [left; exact Hp|].
    right. destruct (Ho a o Ha) as (o' & Ha' & Hpin').
    exists a, o'. repeat split; try assumption. congruence.
  - rewrite Hlen. exact W4.
Qed.

Lemma wf_log s e :
  (forall q, e <> EvTouchInNew q) -> wf s -> wf (log e s).
Proof.
  intros He. apply wf_same_touch; try reflexivity.
  - intros a o Ha. exists o. split; [exact Ha|reflexivity].
  - intros q. simpl. apply constructions_snoc_other, He.
Qed.

Lemma wf_set_detect s v : wf s -> wf (set_detect v s).
Proof.
  apply wf_same_touch; try reflexivity.
  intros a o Ha. exists o. split; [exact Ha|reflexivity].
Qed.

Lemma wf_bind_pad s p :
  wf s -> slot_of s p = Some (SlotPin (pad_pin p)) ->
  wf (bind_pad (pad_slot p) (pad_pin p) s).
Proof.
  intros [W1 W2 W3 W4 W5] Hp. unfold slot_of in Hp.
  pose proof (pad_slot_range p) as Hr.
  assert (Hnew : constructions (pad_pin p) (calls s) = 0).
  { destruct (W3 p) as [[_ H0]|(a & o & Hs & _)]; [exact H0|].
    unfold slot_of in Hs. congruence. }
  split; simpl.
  - rewrite length_insert. exact W1.
  - rewrite list_lookup_insert_ne by lia. exact W2.
  - intros p'. unfold slot_ok, slot_of. simpl.
    destruct (decide (p' = p)) as [->|Hne].
    + right. exists (length (objects s)). eexists. split; [|split; [|split]].
      * apply list_lookup_insert_eq. lia.
      * apply list_lookup_middle. reflexivity.
      * reflexivity.
      * rewrite constructions_app, Hnew. simpl.
        rewrite decide_True by reflexivity. reflexivity.
    + assert (Hs : pad_slot p <> pad_slot p').
      { intros E. apply Hne. symmetry. apply pad_slot_inj, E. }
      assert (Hq : pad_pin p' <> pad_pin p).
      { intros E. apply Hne, pad_pin_inj, E. }
      rewrite list_lookup_insert_ne by exact Hs.
      rewrite constructions_app. simpl.
      rewrite decide_False by exact Hq. rewrite !Nat.add_0_r.
      destruct (W3 p') as [Hl|(a & o & Hl & Ha & Hpin & Hn)]; [left; exact Hl|].
      right. exists a, o. repeat split; try assumption.
      rewrite lookup_app_l; [exact Ha|]. eapply lookup_lt_Some, Ha.
  - intros k a Hk. rewrite length_app. simpl.
    apply lookup_insert_cases in Hk as [[_ Hk]|[_ Hk]].
    + injection Hk as ->. lia.
    + pose proof (W4 k a Hk). lia.
  - intros j k a Hj Hk.
    apply lookup_insert_cases in Hj as [[-> Hj]|[Hj1 Hj]];
      apply lookup_insert_cases in Hk as [[-> Hk]|[Hk1 Hk]].
    + reflexivity.
    + injection Hj as ->. pose proof (W4 k _ Hk). lia.
    + injection Hk as ->. pose proof (W4 j _ Hj). lia.
    + eapply W5; eassumption.
Qed.


Lemma py_index_pad s p :
  wf s -> py_index (length (_touches s)) (pad_index p) = Some (pad_slot p).
Proof.
  intros W. rewrite (wf_length _ W). apply py_index_nonneg.
  pose proof (pad_index_range p). lia.
Qed.

Lemma touch_unbound s p :
  wf s -> slot_of s p = Some (SlotPin (pad_pin p)) ->
  touch p s =
    Ok (touchin_value (pad_pin p)
          (touchin_initial_threshold (pad_pin p) (calls s)
           + _touch_threshold_adjustment s)
          (calls s ++ [EvTouchInNew (pad_pin p)]))
       (bind_pad (pad_slot p) (pad_pin p) s).
Proof.
  intros W Hp. rewrite touch_eq.
  apply _touch_unbound; [apply py_index_pad, W|exact Hp].
Qed.

Lemma touch_bound s p a o :
  wf s -> slot_of s p = Some (SlotTouchIn a) -> objects s !! a = Some o ->
  touch p s = Ok (touchin_value (ti_pin o) (threshold o) (calls s))
                 (log (EvTouchInValue a) s).
Proof.
  intros W Hp Ha. rewrite touch_eq.
  eapply _touch_bound; [apply py_index_pad, W|exact Hp|exact Ha].
Qed.

Lemma wf_touch s p : wf s -> wf (state_of (touch p s)).
Proof.
  intros W. destruct (wf_pads _ W p) as [[Hp _]|(a & o & Hp & Ha & _)].
  - rewrite (touch_unbound _ _ W Hp). simpl. apply wf_bind_pad; assumption.
  - rewrite (touch_bound _ _ _ _ W Hp Ha). simpl.
    apply wf_log; [discriminate|exact W].
Qed.

Lemma adjust_touch_threshold_wf s d :
  wf s ->
  exists objs,
    adjust_touch_threshold d s =
      Ok tt (mkCP (_touches s) (_touch_threshold_adjustment s + d)
                  (_detect_taps s) objs (calls s))
    /\ length objs = length (objects s)
    /\ forall a o, objects s !! a = Some o ->
         objs !! a = Some (mkTouchIn (ti_pin o)
                             (threshold o + d * count_ref a (_touches s))).
Proof.
  intros W.
  destruct (adjust_loop_ok (_touches s) d s (wf_ref _ W))
    as (objs & Hrun & Hlen & Hget).
  exists objs. split; [|split; assumption].
  unfold adjust_touch_threshold, bind, gets, modify. rewrite Hrun. reflexivity.
Qed.

Lemma wf_adjust s d : wf s -> wf (state_of (adjust_touch_threshold d s)).
Proof.
  intros W.
  destruct (adjust_touch_threshold_wf s d W) as (objs & Hrun & Hlen & Hget).
  rewrite Hrun. simpl. revert W. apply wf_same_touch; simpl; try reflexivity.
  - intros a o Ha. eexists. split; [apply Hget, Ha|reflexivity].
  - exact Hlen.
Qed.

Lemma detect_taps_set_eq v s :
  detect_taps_set v s =
    Ok tt (if py_eq v (PyInt 1) then
             if py_eq v (PyInt 2)
             then log (EvSetTap v 60 10 50 255)
                      (log (EvSetTap v 90 4 50 255) (set_detect v s))
             else log (EvSetTap v 90 4 50 255) (set_detect v s)
           else if py_eq v (PyInt 2)
                then log (EvSetTap v 60 10 50 255) (set_detect v s)
                else set_detect v s).
Proof.
  unfold detect_taps_set, bind, modify, lis3dh_set_tap, ret.
  destruct (py_eq v (PyInt 1)), (py_eq v (PyInt 2)); reflexivity.
Qed.

Lemma py_eq_1_2 v : py_eq v (PyInt 1) = true -> py_eq v (PyInt 2) = false.
Proof.
  destruct v as [|[]|z|]; simpl; try discriminate; try reflexivity.
  intros H. apply Z.eqb_eq in H as ->. reflexivity.
Qed.

Lemma wf_detect_taps_set s v : wf s -> wf (state_of (detect_taps_set v s)).
Proof.
  intros W. rewrite detect_taps_set_eq. simpl.
  destruct (py_eq v (PyInt 1)), (py_eq v (PyInt 2));
    repeat (apply wf_log; [discriminate|]); apply wf_set_detect, W.
Qed.

Lemma state_of_fmap {A B} (f : A -> B) (m : M A) s :
  state_of (fmap_M f m s) = state_of (m s).
Proof. unfold fmap_M, bind, ret. destruct (m s); reflexivity. Qed.

Lemma wf_call s o : wf s -> wf (state_of (call o s)).
Proof.
  intros W. destruct o; simpl; rewrite ?state_of_fmap;
    try (apply wf_log; [discriminate|exact W]).
  - apply wf_touch, W.
  - apply wf_adjust, W.
  - exact W.
  - apply wf_detect_taps_set, W.
  - exact W.
Qed.

Lemma reachable_wf s : reachable s -> wf s.
Proof.
  induction 1 as [|s o _ IH].
  - apply wf_init.
  - apply wf_call, IH.
Qed.

Lemma reachable_exec script s : reachable s -> reachable (exec script s).
Proof.
  revert s. induction script as [|o script IH]; intros s R; [exact R|].
  simpl. apply IH. constructor. exact R.
Qed.

Lemma exec_snoc script o s :
  exec (script ++ [o]) s = state_of (call o (exec script s)).
Proof. unfold exec. rewrite foldl_snoc. reflexivity. Qed.

Lemma reachable_is_exec s : reachable s <-> exists script, s = exec script init.
Proof.
  split.
  - induction 1 as [|s o _ [script ->]].
    + exists []. reflexivity.
    + exists (script ++ [o]). symmetry. apply exec_snoc.
  - intros [script ->]. apply reachable_exec, reachable_init.
Qed.

Lemma wf_exec script s : wf s -> wf (exec script s).
Proof.
  revert s. induction script as [|o script IH]; intros s W; [exact W|].
  simpl. apply IH, wf_call, W.
Qed.

(** *** What a call leaves alone *)

Lemma _touch_dangling s i k a :
  py_index (length (_touches s)) i = Some k ->
  _touches s !! k = Some (SlotTouchIn a) ->
  objects s !! a = None ->
  _touch i s = Raise InvalidReference s.
Proof.
  intros Hi Hk Ha.
  unfold _touch, bind, touches_getitem, TouchIn_value, ret.
  rewrite Hi, Hk. simpl. rewrite Hi, Hk, Ha. reflexivity.
Qed.

(** A read either leaves the list as it is, or replaces the pin at its own
    position by a reference to a new object. *)
Lemma _touch_touches i s :
  _touches (state_of (_touch i s)) = _touches s
  \/ exists k q,
       py_index (length (_touches s)) i = Some k
       /\ _touches s !! k = Some (SlotPin q)
       /\ state_of (_touch i s) = bind_pad k q s.
Proof.
  destruct (py_index (length (_touches s)) i) as [k|] eqn:Hi.
  - destruct (_touches s !! k) as [[|q|a]|] eqn:Hk.
    + left. rewrite (_touch_none _ _ _ Hi Hk). reflexivity.
    + right. exists k, q. rewrite (_touch_unbound _ _ _ _ Hi Hk). auto.
    + left. destruct (objects s !! a) as [o|] eqn:Ha.
      * rewrite (_touch_bound _ _ _ _ _ Hi Hk Ha). reflexivity.
      * rewrite (_touch_dangling _ _ _ _ Hi Hk Ha). reflexivity.
    + left. unfold _touch, bind, touches_getitem. rewrite Hi, Hk. reflexivity.
  - left. rewrite (_touch_index_error _ _ Hi). reflexivity.
Qed.

Lemma _touch_fields i s :
  _touch_threshold_adjustment (state_of (_touch i s)) = _touch_threshold_adjustment s
  /\ _detect_taps (state_of (_touch i s)) = _detect_taps s.
Proof.
  destruct (py_index (length (_touches s)) i) as [k|] eqn:Hi.
  - destruct (_touches s !! k) as [[|q|a]|] eqn:Hk.
    + rewrite (_touch_none _ _ _ Hi Hk). auto.
    + rewrite (_touch_unbound _ _ _ _ Hi Hk). auto.
    + destruct (objects s !! a) as [o|] eqn:Ha.
      * rewrite (_touch_bound _ _ _ _ _ Hi Hk Ha). auto.
      * rewrite (_touch_dangling _ _ _ _ Hi Hk Ha). auto.
    + unfold _touch, bind, touches_getitem. rewrite Hi, Hk. auto.
  - rewrite (_touch_index_error _ _ Hi). auto.
Qed.

Lemma adjust_loop_frame l d s :
  let s' := state_of (adjust_loop l d s) in
  _touches s' = _touches s
  /\ _touch_threshold_adjustment s' = _touch_threshold_adjustment s
  /\ _detect_taps s' = _detect_taps s
  /\ calls s' = calls s.
Proof.
  revert s. induction l as [|x l IH]; intros s; simpl; [auto|].
  unfold bind. destruct x as [|q|a]; simpl; try apply IH.
  unfold threshold_iadd. destruct (objects s !! a) as [o|]; simpl; [|auto].
  apply (IH (set_objects _ s)).
Qed.

Lemma adjust_frame d s :
  let s' := state_of (adjust_touch_threshold d s) in
  _touches s' = _touches s
  /\ _detect_taps s' = _detect_taps s
  /\ calls s' = calls s.
Proof.
  pose proof (adjust_loop_frame (_touches s) d s) as H. simpl in H.
  unfold adjust_touch_threshold, bind, gets, modify. simpl.
  destruct (adjust_loop (_touches s) d s) as [[] s1|e s1]; simpl in *; tauto.
Qed.

Lemma touches_call_other o s :
  (forall q, o <> OpTouch q) ->
  _touches (state_of (call o s)) = _touches s.
Proof.
  intros Ho. destruct o; simpl; rewrite ?state_of_fmap; try reflexivity.
  - exfalso. eapply Ho. reflexivity.
  - apply adjust_frame.
  - rewrite detect_taps_set_eq. simpl.
    destruct (py_eq value (PyInt 1)), (py_eq value (PyInt 2)); reflexivity.
Qed.

Lemma pad_py_index n p k :
  py_index n (pad_index p) = Some k -> k = pad_slot p.
Proof.
  unfold py_index. pose proof (pad_index_range p) as Hr.
  destruct ((0 <=? pad_index p) && (pad_index p <? Z.of_nat n))%Z.
  - intros [= <-]. reflexivity.
  - destruct ((- Z.of_nat n <=? pad_index p) && (pad_index p <? 0))%Z eqn:E;
      [|discriminate].
    apply andb_true_iff in E as [_ E]. apply Z.ltb_lt in E. lia.
Qed.

(** A bound pad stays bound to the same object through any call. *)
Lemma bound_stable_call s p a o :
  slot_of s p = Some (SlotTouchIn a) ->
  slot_of (state_of (call o s)) p = Some (SlotTouchIn a).
Proof.
  intros Hp. unfold slot_of in *.
  assert (Hcase : (exists q, o = OpTouch q) \/ (forall q, o <> OpTouch q)).
  { destruct o; try (right; discriminate). left. eauto. }
  destruct Hcase as [[q ->]|Hno].
  - simpl. rewrite state_of_fmap, touch_eq.
    destruct (_touch_touches (pad_index q) s) as [->|(k & r & Hi & Hk & ->)];
      [exact Hp|].
    simpl. apply pad_py_index in Hi as ->.
    rewrite list_lookup_insert_ne; [exact Hp|].
    intros E. rewrite E in Hk. congruence.
  - rewrite touches_call_other; [exact Hp|exact Hno].
Qed.

Lemma bound_stable_exec script s p a :
  slot_of s p = Some (SlotTouchIn a) ->
  slot_of (exec script s) p = Some (SlotTouchIn a).
Proof.
  revert s. induction script as [|o script IH]; intros s Hp; [exact Hp|].
  simpl. apply IH, bound_stable_call, Hp.
Qed.

(** *** Reads and bindings along a script *)

Lemma touch_other_slot s p p' :
  p' <> p -> slot_of (state_of (touch p s)) p' = slot_of s p'.
Proof.
  intros Hne. unfold slot_of. rewrite touch_eq.
  destruct (_touch_touches (pad_index p) s) as [->|(k & r & Hi & Hk & ->)];
    [reflexivity|].
  simpl. apply pad_py_index in Hi as ->.
  apply list_lookup_insert_ne. intros E. apply Hne. symmetry.
  apply pad_slot_inj, E.
Qed.

Lemma touch_binds s p :
  wf s -> exists a, slot_of (state_of (touch p s)) p = Some (SlotTouchIn a).
Proof.
  intros W. destruct (wf_pads _ W p) as [[Hp _]|(a & o & Hp & Ha & _)].
  - rewrite (touch_unbound _ _ W Hp). simpl. eexists.
    unfold slot_of. simpl. apply list_lookup_insert_eq.
    rewrite (wf_length _ W). pose proof (pad_slot_range p). lia.
  - rewrite (touch_bound _ _ _ _ W Hp Ha). exists a. exact Hp.
Qed.

Lemma exec_reads script s p :
  wf s ->
  if reads_pad p script
  then exists a, slot_of (exec script s) p = Some (SlotTouchIn a)
  else slot_of (exec script s) p = slot_of s p.
Proof.
  revert s. induction script as [|o script IH]; intros s W; [reflexivity|].
  pose proof (IH _ (wf_call s o W)) as IH'.
  assert (Hother : (forall q, o <> OpTouch q) ->
            if reads_pad p script
            then exists a, slot_of (exec (o :: script) s) p = Some (SlotTouchIn a)
            else slot_of (exec (o :: script) s) p = slot_of s p).
  { intros Ho. simpl. destruct (reads_pad p script); [exact IH'|].
    rewrite IH'. unfold slot_of. rewrite touches_call_other by exact Ho.
    reflexivity. }
  destruct o as [q| | | | | | | | | | | | | | |];
    try (apply Hother; discriminate).
  simpl. destruct (bool_decide_reflect (p = q)) as [<-|Hne]; simpl.
  - rewrite state_of_fmap. destruct (touch_binds s p W) as [a Ha].
    exists a. apply bound_stable_exec, Ha.
  - destruct (reads_pad p script); [exact IH'|].
    simpl in IH'. rewrite IH', state_of_fmap. apply touch_other_slot, Hne.
Qed.

(** Claim C1.  Promotion happens once per pad.  Along any script run from the
    freshly constructed object: if the script has not read pad [p] yet, its
    slot still holds the pin, no [TouchIn] has been constructed for that pin,
    and reading the pad constructs exactly one, stores a reference to it in
    the slot and returns the driver's reading of it; if the script has read
    the pad, the slot holds a reference to a [TouchIn] of that pin,
    exactly one construction is on record, and reading the pad only asks that
    same object for its reading: the list, the store and the count of
    constructions stay as they are. *)
Theorem touch_promotes_once (script : list op) (p : pad) :
  let s := exec script init in
  let q := pad_pin p in
  if reads_pad p script then
    exists a o,
      slot_of s p = Some (SlotTouchIn a)
      /\ objects s !! a = Some o /\ ti_pin o = q
      /\ constructions q (calls s) = 1
      /\ touch p s = Ok (touchin_value q (threshold o) (calls s))
                        (log (EvTouchInValue a) s)
      /\ slot_of (state_of (touch p s)) p = Some (SlotTouchIn a)
      /\ objects (state_of (touch p s)) = objects s
      /\ constructions q (calls (state_of (touch p s))) = 1
  else
    slot_of s p = Some (SlotPin q)
    /\ constructions q (calls s) = 0
    /\ touch p s =
         Ok (touchin_value q
               (touchin_initial_threshold q (calls s) + _touch_threshold_adjustment s)
               (calls s ++ [EvTouchInNew q]))
            (bind_pad (pad_slot p) q s)
    /\ slot_of (state_of (touch p s)) p = Some (SlotTouchIn (length (objects s)))
    /\ constructions q (calls (state_of (touch p s))) = 1.
Proof.
  intros s q. subst q.
  assert (W : wf s) by apply wf_exec, wf_init.
  pose proof (exec_reads script init p wf_init) as Hr. fold s in Hr.
  destruct (reads_pad p script).
  - destruct Hr as [a Ha].
    destruct (wf_pads _ W p) as [[Hp _]|(a' & o & Hp & Ho & Hpin & Hn)];
      [congruence|].
    assert (a' = a) as -> by congruence.
    exists a, o. rewrite (touch_bound _ _ _ _ W Hp Ho), Hpin. simpl.
    repeat split; try assumption.
    rewrite constructions_snoc_other by discriminate. exact Hn.
  - assert (Hp : slot_of s p = Some (SlotPin (pad_pin p))).
    { rewrite Hr. destruct p; reflexivity. }
    destruct (wf_pads _ W p) as [[_ Hn]|(a' & o & Hp' & _)]; [|congruence].
    rewrite (touch_unbound _ _ W Hp). simpl.
    repeat split; try assumption.
    + unfold slot_of. simpl. apply list_lookup_insert_eq.
      rewrite (wf_length _ W). pose proof (pad_slot_range p). lia.
    + rewrite constructions_app, Hn. simpl.
      rewrite decide_True by reflexivity. reflexivity.
Qed.

(** Claim C4.  A bound slot never reverts.  From any state in which the slot of pad
    [p] refers to a [TouchIn], every script of public operations leaves the
    slot referring to that same object; and from any state the object can be
    in, two reads of the pad in a row both return a reading, and the slot
    refers to the same object, with the same threshold, after the first and
    after the second. *)
Theorem bound_never_reverts (p : pad) :
  (forall s a later,
     slot_of s p = Some (SlotTouchIn a) ->
     slot_of (exec later s) p = Some (SlotTouchIn a))
  /\ (forall script,
        let s := exec script init in
        let s1 := state_of (touch p s) in
        let s2 := state_of (touch p s1) in
        exists a t,
          slot_of s1 p = Some (SlotTouchIn a)
          /\ slot_of s2 p = Some (SlotTouchIn a)
          /\ bound_threshold s1 p = Some t
          /\ bound_threshold s2 p = Some t
          /\ is_Some (value_of (touch p s))
          /\ is_Some (value_of (touch p s1))).
Proof.
  split.
  - intros s a later Hp. apply bound_stable_exec, Hp.
  - intros script s s1 s2.
    assert (W : wf s) by apply wf_exec, wf_init.
    assert (W1 : wf s1) by apply wf_touch, W.
    destruct (touch_binds s p W) as [a Ha]. fold s1 in Ha.
    destruct (wf_pads _ W1 p) as [[Hp _]|(a' & o & Hp & Ho & _)];
      [congruence|].
    assert (a' = a) as -> by congruence.
    assert (E2 : touch p s1 = Ok (touchin_value (ti_pin o) (threshold o) (calls s1))
                                 (log (EvTouchInValue a) s1))
      by (apply touch_bound; assumption).
    assert (Hv : is_Some (value_of (touch p s))).
    { destruct (wf_pads _ W p) as [[Hq _]|(b & ob & Hq & Hob & _)].
      - rewrite (touch_unbound _ _ W Hq). eexists; reflexivity.
      - rewrite (touch_bound _ _ _ _ W Hq Hob). eexists; reflexivity. }
    assert (Ht : bound_threshold s1 p = Some (threshold o)).
    { unfold bound_threshold, threshold_at. unfold slot_of in Hp.
      rewrite Hp, Ho. reflexivity. }
    exists a, (threshold o). subst s2. rewrite E2.
    split; [exact Hp|]. split; [exact Hp|]. split; [exact Ht|].
    split; [exact Ht|]. split; [exact Hv|]. eexists; reflexivity.
Qed.

(** *** Thresholds under adjustment and binding *)

Lemma threshold_at_adjust s d k :
  wf s ->
  threshold_at (state_of (adjust_touch_threshold d s)) k
  = (fun t => (t + d)%Z) <$> threshold_at s k.
Proof.
  intros W.
  destruct (adjust_touch_threshold_wf s d W) as (objs & Hrun & Hlen & Hget).
  rewrite Hrun. unfold threshold_at. simpl.
  destruct (_touches s !! k) as [[|q|a]|] eqn:Hk; try reflexivity.
  destruct (lookup_lt_is_Some_2 _ _ (wf_ref _ W k a Hk)) as [o Ho].
  rewrite (Hget a o Ho), Ho. simpl.
  rewrite (count_ref_unique a (_touches s) k Hk).
  - rewrite Z.mul_1_r. reflexivity.
  - intros j Hj. apply (wf_inj _ W j k a Hj Hk).
Qed.

Lemma adjust_accumulates s d :
  wf s ->
  _touch_threshold_adjustment (state_of (adjust_touch_threshold d s))
  = (_touch_threshold_adjustment s + d)%Z.
Proof.
  intros W.
  destruct (adjust_touch_threshold_wf s d W) as (objs & Hrun & _).
  rewrite Hrun. reflexivity.
Qed.

Lemma adjust_returns s d :
  wf s -> adjust_touch_threshold d s = Ok tt (state_of (adjust_touch_threshold d s)).
Proof.
  intros W.
  destruct (adjust_touch_threshold_wf s d W) as (objs & Hrun & _).
  rewrite Hrun. reflexivity.
Qed.

Lemma adjust_none_bound s d :
  none_bound s ->
  adjust_touch_threshold d s
  = Ok tt (set_adjustment (_touch_threshold_adjustment s + d) s).
Proof.
  intros Hn. unfold adjust_touch_threshold, bind, gets, modify.
  rewrite (adjust_loop_none_bound _ d s Hn). reflexivity.
Qed.

Lemma accumulator_call s o :
  wf s ->
  _touch_threshold_adjustment (state_of (call o s))
  = (_touch_threshold_adjustment s + adjustments [o])%Z.
Proof.
  intros W. destruct o; simpl; rewrite ?state_of_fmap, ?Z.add_0_r;
    try reflexivity.
  - rewrite touch_eq. apply _touch_fields.
  - apply adjust_accumulates, W.
  - rewrite detect_taps_set_eq. simpl.
    destruct (py_eq value (PyInt 1)), (py_eq value (PyInt 2)); reflexivity.
Qed.

Lemma adjustments_cons o script :
  adjustments (o :: script) = (adjustments [o] + adjustments script)%Z.
Proof. destruct o; simpl; lia. Qed.

Lemma accumulator_exec script s :
  wf s ->
  _touch_threshold_adjustment (exec script s)
  = (_touch_threshold_adjustment s + adjustments script)%Z.
Proof.
  revert s. induction script as [|o script IH]; intros s W.
  - simpl. lia.
  - simpl exec. rewrite (IH _ (wf_call s o W)), (accumulator_call s o W).
    rewrite (adjustments_cons o script). lia.
Qed.

Lemma bound_threshold_first_read s p :
  wf s -> slot_of s p = Some (SlotPin (pad_pin p)) ->
  bound_threshold (state_of (touch p s)) p
  = Some (touchin_initial_threshold (pad_pin p) (calls s)
          + _touch_threshold_adjustment s)%Z.
Proof.
  intros W Hp. rewrite (touch_unbound _ _ W Hp).
  unfold bound_threshold, threshold_at. simpl.
  rewrite list_lookup_insert_eq
    by (rewrite (wf_length _ W); pose proof (pad_slot_range p); lia).
  rewrite list_lookup_middle by reflexivity. reflexivity.
Qed.

Lemma bound_threshold_later_read s p a :
  wf s -> slot_of s p = Some (SlotTouchIn a) ->
  bound_threshold (state_of (touch p s)) p = bound_threshold s p.
Proof.
  intros W Hp.
  destruct (lookup_lt_is_Some_2 _ _ (wf_ref _ W _ _ Hp)) as [o Ho].
  rewrite (touch_bound _ _ _ _ W Hp Ho). reflexivity.
Qed.

(** Claim C2.  Threshold adjustment.  In any state the object can be in,
    [adjust_touch_threshold d] returns, adds [d] to the threshold of the
    [TouchIn] of every bound pad and to nothing else (no driver call is
    issued, the list is left as it is), and adds [d] to the accumulator,
    which thus always holds the sum of all adjustments made so far; a pad
    first read at any later point starts from the driver's initial threshold
    plus the sum of all adjustments made up to then; and when no pad is
    bound the call changes the accumulator only. *)
Theorem adjust_touch_threshold_spec (script : list op) (d : Z) :
  let s := exec script init in
  let s' := state_of (adjust_touch_threshold d s) in
  adjust_touch_threshold d s = Ok tt s'
  /\ (forall p, bound_threshold s' p = (fun t => (t + d)%Z) <$> bound_threshold s p)
  /\ _touches s' = _touches s
  /\ calls s' = calls s
  /\ _touch_threshold_adjustment s = adjustments script
  /\ _touch_threshold_adjustment s' = (adjustments script + d)%Z
  /\ (forall later p,
        let s2 := exec later s' in
        slot_of s2 p = Some (SlotPin (pad_pin p)) ->
        bound_threshold (state_of (touch p s2)) p
        = Some (touchin_initial_threshold (pad_pin p) (calls s2)
                + (adjustments script + d + adjustments later))%Z)
  /\ (none_bound s ->
      s' = set_adjustment (_touch_threshold_adjustment s + d) s).
Proof.
  intros s s'.
  assert (W : wf s) by apply wf_exec, wf_init.
  assert (W' : wf s') by apply wf_adjust, W.
  assert (Hacc : _touch_threshold_adjustment s = adjustments script).
  { unfold s. rewrite (accumulator_exec script init wf_init). reflexivity. }
  assert (Hacc' : _touch_threshold_adjustment s' = (adjustments script + d)%Z).
  { unfold s'. rewrite (adjust_accumulates s d W), Hacc. reflexivity. }
  split; [apply adjust_returns, W|].
  split; [intros p; apply threshold_at_adjust, W|].
  split; [apply adjust_frame|].
  split; [apply adjust_frame|].
  split; [exact Hacc|].
  split; [exact Hacc'|].
  split.
  - intros later p s2 Hp.
    assert (W2 : wf s2) by apply wf_exec, W'.
    rewrite (bound_threshold_first_read s2 p W2 Hp).
    unfold s2 at 2. rewrite (accumulator_exec later s' W'), Hacc'. reflexivity.
  - intros Hn. unfold s'. rewrite (adjust_none_bound s d Hn). reflexivity.
Qed.

(** Claim C3.  Adjustments add up.  In any state the object can be in, adjusting by
    [d1] and then by [d2] leaves pad [p] with the same bound threshold as
    adjusting once by [d1 + d2]: when the pad is bound before the
    adjustments (the threshold is the earlier one plus [d1 + d2]), when it is
    first read after them, and when it is first read between the two (compared
    with a single adjustment made before, or after, that read). *)
Theorem adjust_additive (script : list op) (d1 d2 : Z) (p : pad) :
  let s := exec script init in
  let adj d st := state_of (adjust_touch_threshold d st) in
  let rd st := state_of (touch p st) in
  bound_threshold (adj d2 (adj d1 s)) p
    = (fun t => (t + (d1 + d2))%Z) <$> bound_threshold s p
  /\ bound_threshold (adj (d1 + d2)%Z s) p
    = (fun t => (t + (d1 + d2))%Z) <$> bound_threshold s p
  /\ bound_threshold (rd (adj d2 (adj d1 s))) p
     = bound_threshold (rd (adj (d1 + d2)%Z s)) p
  /\ bound_threshold (adj d2 (rd (adj d1 s))) p
     = bound_threshold (rd (adj (d1 + d2)%Z s)) p
  /\ bound_threshold (adj d2 (rd (adj d1 s))) p
     = bound_threshold (adj (d1 + d2)%Z (rd s)) p
  /\ is_Some (bound_threshold (rd (adj (d1 + d2)%Z s)) p).
Proof.
  intros s adj rd.
  assert (W : wf s) by apply wf_exec, wf_init.
  assert (Wadj : forall d st, wf st -> wf (adj d st))
    by (intros; apply wf_adjust; assumption).
  assert (Wrd : forall st, wf st -> wf (rd st))
    by (intros; apply wf_touch; assumption).
  assert (Hadj : forall d st, wf st ->
            bound_threshold (adj d st) p
            = (fun t => (t + d)%Z) <$> bound_threshold st p)
    by (intros; apply threshold_at_adjust; assumption).
  assert (Hslot : forall d st, slot_of (adj d st) p = slot_of st p).
  { intros d st. unfold slot_of, adj.
    destruct (adjust_frame d st) as (-> & _). reflexivity. }
  assert (Hcalls : forall d st, calls (adj d st) = calls st)
    by (intros d st; apply adjust_frame).
  assert (Hacc : forall d st, wf st ->
            _touch_threshold_adjustment (adj d st)
            = (_touch_threshold_adjustment st + d)%Z)
    by (intros; apply adjust_accumulates; assumption).
  assert (H12 : bound_threshold (adj d2 (adj d1 s)) p
                = (fun t => (t + (d1 + d2))%Z) <$> bound_threshold s p).
  { rewrite Hadj, Hadj by auto.
    destruct (bound_threshold s p); simpl; f_equal; lia. }
  split; [exact H12|]. split; [apply Hadj, W|].
  destruct (wf_pads _ W p) as [[Hp _]|(a & o & Hp & Ho & _)].
  - (* the pad is not bound yet *)
    assert (Hrd : forall st, wf st -> slot_of st p = Some (SlotPin (pad_pin p)) ->
              bound_threshold (rd st) p
              = Some (touchin_initial_threshold (pad_pin p) (calls st)
                      + _touch_threshold_adjustment st)%Z)
      by (intros; apply bound_threshold_first_read; assumption).
    rewrite (Hrd (adj d2 (adj d1 s))), (Hrd (adj (d1 + d2)%Z s))
      by (rewrite ?Hslot; auto).
    rewrite (Hadj d2 (rd (adj d1 s))), (Hadj (d1 + d2)%Z (rd s)) by auto.
    rewrite (Hrd (adj d1 s)), (Hrd s) by (rewrite ?Hslot; auto).
    rewrite !Hcalls, !Hacc by auto. simpl.
    repeat split; try (f_equal; lia). eexists; reflexivity.
  - (* the pad is already bound *)
    assert (Hrd : forall st, wf st -> slot_of st p = Some (SlotTouchIn a) ->
              bound_threshold (rd st) p = bound_threshold st p)
      by (intros; eapply bound_threshold_later_read; eassumption).
    rewrite (Hrd (adj d2 (adj d1 s))), (Hrd (adj (d1 + d2)%Z s))
      by (rewrite ?Hslot; auto).
    rewrite (Hadj d2 (rd (adj d1 s))), (Hadj (d1 + d2)%Z (rd s)) by auto.
    rewrite (Hrd (adj d1 s)), (Hrd s) by (rewrite ?Hslot; auto).
    rewrite H12, !Hadj by auto.
    assert (Hb : bound_threshold s p = Some (threshold o)).
    { unfold bound_threshold, threshold_at. unfold slot_of in Hp.
      rewrite Hp, Ho. reflexivity. }
    rewrite Hb. simpl.
    repeat split; try (f_equal; lia). eexists; reflexivity.
Qed.

(** *** Tap detection *)

(** Claim C5.  Tap-detection modes.  In any state, assigning [1] to [detect_taps]
    stores it and issues the single call
    [set_tap(1, 90, time_limit=4, time_latency=50, time_window=255)];
    assigning [2] stores it and issues the single call
    [set_tap(2, 60, time_limit=10, time_latency=50, time_window=255)];
    assigning [1] and then [2] issues these two calls, which differ, in that
    order and nothing else. *)
Theorem detect_taps_set_configures (s : CircuitPlaygroundBase) :
  detect_taps_set (PyInt 1) s
    = Ok tt (log (EvSetTap (PyInt 1) 90 4 50 255) (set_detect (PyInt 1) s))
  /\ detect_taps_set (PyInt 2) s
    = Ok tt (log (EvSetTap (PyInt 2) 60 10 50 255) (set_detect (PyInt 2) s))
  /\ calls (exec [OpDetectTapsSet (PyInt 1); OpDetectTapsSet (PyInt 2)] s)
    = calls s ++ [EvSetTap (PyInt 1) 90 4 50 255; EvSetTap (PyInt 2) 60 10 50 255]
  /\ EvSetTap (PyInt 1) 90 4 50 255 <> EvSetTap (PyInt 2) 60 10 50 255.
Proof.
  split; [reflexivity|]. split; [reflexivity|]. split; [|discriminate].
  simpl. rewrite <- app_assoc. reflexivity.
Qed.

(** Claim C6.  Other tap-detection values.  Assigning to [detect_taps] a value that
    compares equal to neither [1] nor [2] returns normally, stores the value,
    which the getter then returns, and issues no driver call: every other
    attribute, the object store and the call history are as before. *)
Theorem detect_taps_set_other (value : pyval) (s : CircuitPlaygroundBase) :
  py_eq value (PyInt 1) = false ->
  py_eq value (PyInt 2) = false ->
  detect_taps_set value s = Ok tt (set_detect value s)
  /\ detect_taps_get (set_detect value s) = Ok value (set_detect value s)
  /\ calls (state_of (detect_taps_set value s)) = calls s.
Proof.
  intros H1 H2. rewrite detect_taps_set_eq, H1, H2.
  repeat split; reflexivity.
Qed.

(** *** Light level *)

(** Claim C7.  Light scaling.  The light level of a raw sample [r] is
    [r * 330] floor-divided by [65536]; a raw sample of [65536] gives [330]
    and a raw sample of [0] gives [0]; the [light] property of the object
    returns this value for the sample the analog input delivers. *)
Theorem light_scaling :
  (forall r, Photocell_light r = (r * 330 / 65536)%Z)
  /\ Photocell_light 65536 = 330%Z
  /\ Photocell_light 0 = 0%Z
  /\ (forall s, light s = Ok (analogin_value (calls s) * 330 / 65536)%Z
                             (log EvAnalogValue s)).
Proof. repeat split; reflexivity. Qed.

(** *** Buttons *)

Lemma land_pow2 (m z : Z) :
  (0 <= m)%Z -> Z.land (2 ^ m) z = if Z.testbit z m then (2 ^ m)%Z else 0%Z.
Proof.
  intros Hk. apply Z.bits_inj'. intros n Hn.
  rewrite Z.land_spec, Z.pow2_bits_eqb by exact Hk.
  destruct (Z.eqb_spec m n) as [<-|Hne]; simpl.
  - destruct (Z.testbit z m).
    + rewrite Z.pow2_bits_eqb by exact Hk. symmetry. apply Z.eqb_refl.
    + rewrite Z.bits_0. reflexivity.
  - destruct (Z.testbit z m).
    + rewrite Z.pow2_bits_eqb by exact Hk. symmetry. apply Z.eqb_neq, Hne.
    + rewrite Z.bits_0. reflexivity.
Qed.

Lemma mask_test (m z : Z) :
  (0 <= m)%Z -> (Z.land (2 ^ m) z =? 0)%Z = negb (Z.testbit z m).
Proof.
  intros Hk. rewrite land_pow2 by exact Hk.
  destruct (Z.testbit z m); simpl; [|reflexivity].
  apply Z.eqb_neq. pose proof (Z.pow_pos_nonneg 2 m). lia.
Qed.

Lemma mask_A (z : Z) : (Z.land 1 z =? 0)%Z = negb (Z.testbit z 0).
Proof. apply (mask_test 0 z). lia. Qed.

Lemma mask_B (z : Z) : (Z.land 2 z =? 0)%Z = negb (Z.testbit z 1).
Proof. apply (mask_test 1 z). lia. Qed.

Lemma decode_pressed_eq pressed :
  decode_pressed pressed
  = (if Z.testbit pressed 0 then {[ "A" ]} else ∅)
    ∪ (if Z.testbit pressed 1 then {[ "B" ]} else ∅).
Proof.
  unfold decode_pressed, button_masks. cbn [were_pressed_loop].
  rewrite mask_A, mask_B.
  destruct (Z.testbit pressed 0), (Z.testbit pressed 1); cbn [negb];
    set_solver.
Qed.

(** Claim C8.  Button decoding.  For every polled bitmask, the set returned by
    [were_pressed] contains ["A"] exactly when bit 0 is set, ["B"] exactly
    when bit 1 is set, and nothing else; so [0x03] gives [{A, B}], [0x00] the
    empty set and [0x01] gives [{A}]. *)
Theorem were_pressed_decodes (pressed : Z) :
  (forall b, b ∈ decode_pressed pressed <->
             (b = "A" /\ Z.testbit pressed 0 = true)
             \/ (b = "B" /\ Z.testbit pressed 1 = true))
  /\ decode_pressed 3 = {[ "A"; "B" ]}
  /\ decode_pressed 0 = ∅
  /\ decode_pressed 1 = {[ "A" ]}
  /\ (forall s, were_pressed s
                = Ok (decode_pressed (gamepad_get_pressed (calls s)))
                     (log EvGetPressed s)).
Proof.
  split; [|split; [|split; [|split]]].
  - intros b. rewrite decode_pressed_eq, elem_of_union.
    destruct (Z.testbit pressed 0), (Z.testbit pressed 1);
      rewrite ?elem_of_singleton, ?elem_of_empty; intuition discriminate.
  - rewrite decode_pressed_eq.
    change (Z.testbit 3 0) with true. change (Z.testbit 3 1) with true.
    set_solver.
  - rewrite decode_pressed_eq.
    change (Z.testbit 0 0) with false. change (Z.testbit 0 1) with false.
    set_solver.
  - rewrite decode_pressed_eq.
    change (Z.testbit 1 0) with true. change (Z.testbit 1 1) with false.
    set_solver.
  - reflexivity.
Qed.

(** *** The slot table *)

Lemma with_slot0_bind_pad x k q s :
  k <> 0 ->
  bind_pad k q (with_slot0 x s) = with_slot0 x (bind_pad k q s).
Proof.
  intros Hk. unfold bind_pad, with_slot0, set_touches. simpl.
  rewrite (list_insert_insert_ne (_touches s) k 0) by exact Hk. reflexivity.
Qed.

Lemma touch_ignores_slot0 s p x :
  wf s -> touch p (with_slot0 x s) = map_state (with_slot0 x) (touch p s).
Proof.
  intros W. pose proof (pad_slot_range p) as Hr.
  assert (Hi : py_index (length (_touches (with_slot0 x s))) (pad_index p)
               = Some (pad_slot p)).
  { simpl. rewrite length_insert. apply py_index_pad, W. }
  assert (Hl : _touches (with_slot0 x s) !! pad_slot p = _touches s !! pad_slot p).
  { simpl. apply list_lookup_insert_ne. lia. }
  destruct (wf_pads _ W p) as [[Hp _]|(a & o & Hp & Ho & _)]; unfold slot_of in Hp.
  - rewrite (touch_unbound _ _ W Hp), touch_eq.
    rewrite (_touch_unbound _ _ _ (pad_pin p) Hi) by (rewrite Hl; exact Hp).
    simpl. rewrite with_slot0_bind_pad by lia. reflexivity.
  - rewrite (touch_bound _ _ _ _ W Hp Ho), touch_eq.
    rewrite (_touch_bound _ _ _ a o Hi) by (rewrite ?Hl; assumption).
    reflexivity.
Qed.

(** Claim C9.  The slot table is safe for valid indices.  In any state the object
    can be in and for every index [i] from 1 to 7, the subscript
    [self._touches[i]] is within the list and yields a pin or a reference to
    an existing [TouchIn], never [None], so [_touch i] returns a reading;
    [i] is the index one of the seven touch properties uses; slot 0 still
    holds [None]; and what a touch property does is the same whatever is
    stored in slot 0, which it leaves as it is. *)
Theorem touch_slot_table_safe (script : list op) (i : Z) :
  (1 <= i <= 7)%Z ->
  let s := exec script init in
  exists k x,
    py_index (length (_touches s)) i = Some k
    /\ 1 <= k < length (_touches s)
    /\ touches_getitem i s = Ok x s
    /\ ((exists q, x = SlotPin q)
        \/ (exists a o, x = SlotTouchIn a /\ objects s !! a = Some o))
    /\ x <> SlotNone
    /\ is_Some (value_of (_touch i s))
    /\ (exists p, pad_index p = i /\ touch p = _touch i)
    /\ _touches s !! 0 = Some SlotNone
    /\ (forall p x0,
          touch p (with_slot0 x0 s) = map_state (with_slot0 x0) (touch p s)).
Proof.
  intros Hi s.
  assert (W : wf s) by apply wf_exec, wf_init.
  destruct (pad_index_complete i Hi) as [p <-].
  pose proof (pad_slot_range p) as Hr.
  pose proof (py_index_pad s p W) as Hk.
  assert (Hshape : exists x, _touches s !! pad_slot p = Some x
            /\ ((exists q, x = SlotPin q)
                \/ (exists a o, x = SlotTouchIn a /\ objects s !! a = Some o))
            /\ is_Some (value_of (_touch (pad_index p) s))).
  { rewrite <- touch_eq.
    destruct (wf_pads _ W p) as [[Hp _]|(a & o & Hp & Ho & _)].
    - exists (SlotPin (pad_pin p)). split; [exact Hp|]. split; [eauto|].
      rewrite (touch_unbound _ _ W Hp). eexists; reflexivity.
    - exists (SlotTouchIn a). split; [exact Hp|]. split; [eauto|].
      rewrite (touch_bound _ _ _ _ W Hp Ho). eexists; reflexivity. }
  destruct Hshape as (x & Hx & Hkind & Hval).
  exists (pad_slot p), x.
  split; [exact Hk|]. split; [rewrite (wf_length _ W); lia|].
  split; [unfold touches_getitem; rewrite Hk, Hx; reflexivity|].
  split; [exact Hkind|].
  split; [destruct Hkind as [[q ->]|(a & o & -> & _)]; discriminate|].
  split; [exact Hval|].
  split; [exists p; split; [reflexivity|apply touch_eq]|].
  split; [apply (wf_slot0 _ W)|].
  intros p' x0. apply touch_ignores_slot0, W.
Qed.

(** Claim C10.  A read touches its own slot only.  In any state the object can be
    in and for distinct indices [i] and [j] from 1 to 7, [_touch i] leaves
    the entry of slot [j] and the threshold of the [TouchIn] it may refer to
    as they were, and leaves the threshold accumulator and the stored
    tap-detection mode as they were. *)
Theorem touch_frame (script : list op) (i j : Z) :
  (1 <= i <= 7)%Z -> (1 <= j <= 7)%Z -> i <> j ->
  let s := exec script init in
  let s' := state_of (_touch i s) in
  _touches s' !! Z.to_nat j = _touches s !! Z.to_nat j
  /\ threshold_at s' (Z.to_nat j) = threshold_at s (Z.to_nat j)
  /\ _touch_threshold_adjustment s' = _touch_threshold_adjustment s
  /\ _detect_taps s' = _detect_taps s.
Proof.
  intros Hi Hj Hne s s'.
  assert (W : wf s) by apply wf_exec, wf_init.
  destruct (pad_index_complete i Hi) as [p <-].
  assert (Hslot : _touches s' !! Z.to_nat j = _touches s !! Z.to_nat j).
  { subst s'.
    destruct (_touch_touches (pad_index p) s) as [->|(k & r & Hk & _ & ->)];
      [reflexivity|].
    simpl. apply pad_py_index in Hk as ->.
    apply list_lookup_insert_ne. unfold pad_slot. lia. }
  split; [exact Hslot|]. split; [|apply _touch_fields].
  unfold threshold_at. rewrite Hslot.
  destruct (_touches s !! Z.to_nat j) as [[|q|a]|] eqn:Hl; try reflexivity.
  pose proof (wf_ref _ W _ _ Hl) as Ha. subst s'.
  rewrite <- touch_eq.
  destruct (wf_pads _ W p) as [[Hp _]|(b & o & Hp & Ho & _)].
  - rewrite (touch_unbound _ _ W Hp). simpl.
    rewrite lookup_app_l by exact Ha. reflexivity.
  - rewrite (touch_bound _ _ _ _ W Hp Ho). reflexivity.
Qed.

(** * Further properties of the code *)

(** *** Subscripts outside 1..7 *)

Lemma _touch_by_position i j s :
  py_index (length (_touches s)) i = py_index (length (_touches s)) j ->
  _touch i s = _touch j s.
Proof.
  intros E. destruct (py_index (length (_touches s)) i) as [k|] eqn:Hi;
    symmetry in E.
  - destruct (_touches s !! k) as [[|q|a]|] eqn:Hk.
    + rewrite (_touch_none _ _ _ Hi Hk), (_touch_none _ _ _ E Hk). reflexivity.
    + rewrite (_touch_unbound _ _ _ _ Hi Hk), (_touch_unbound _ _ _ _ E Hk).
      reflexivity.
    + destruct (objects s !! a) as [o|] eqn:Ha.
      * rewrite (_touch_bound _ _ _ _ _ Hi Hk Ha), (_touch_bound _ _ _ _ _ E Hk Ha).
        reflexivity.
      * rewrite (_touch_dangling _ _ _ _ Hi Hk Ha), (_touch_dangling _ _ _ _ E Hk Ha).
        reflexivity.
    + apply py_index_lt in Hi. apply lookup_ge_None in Hk. lia.
  - rewrite (_touch_index_error _ _ Hi), (_touch_index_error _ _ E). reflexivity.
Qed.

(** Property X1.  What [_touch] does outside the indices the touch properties
    use, in any state the object can be in: index 0 raises [TypeError]
    (slot 0 holds [None], which is no pin) and an index of 8 or more, or
    below -8, raises [IndexError], both leaving the object as it was; a
    negative index from -8 to -1 counts from the end of the list, so it
    behaves exactly as the index 8 higher does. *)
Theorem touch_index_edges (script : list op) (i : Z) :
  let s := exec script init in
  (i = 0%Z -> _touch i s = Raise TypeError s)
  /\ ((i < -8 \/ 8 <= i)%Z -> _touch i s = Raise IndexError s)
  /\ ((-8 <= i < 0)%Z -> _touch i s = _touch (i + 8) s).
Proof.
  intros s. assert (W : wf s) by apply wf_exec, wf_init.
  pose proof (wf_length _ W) as Hlen.
  split; [|split].
  - intros ->. apply (_touch_none s 0 0); [|apply (wf_slot0 _ W)].
    rewrite Hlen. reflexivity.
  - intros Hi. apply _touch_index_error. rewrite Hlen. unfold py_index.
    destruct ((0 <=? i) && (i <? Z.of_nat 8))%Z eqn:E1.
    { apply andb_true_iff in E1 as [E1 E2].
      apply Z.leb_le in E1. apply Z.ltb_lt in E2. lia. }
    destruct ((- Z.of_nat 8 <=? i) && (i <? 0))%Z eqn:E2; [|reflexivity].
    apply andb_true_iff in E2 as [E2 E3].
    apply Z.leb_le in E2. apply Z.ltb_lt in E3. lia.
  - intros Hi. apply _touch_by_position. rewrite Hlen.
    rewrite (py_index_nonneg 8 (i + 8)) by lia. unfold py_index.
    destruct ((0 <=? i) && (i <? Z.of_nat 8))%Z eqn:E1.
    { apply andb_true_iff in E1 as [E1 _]. apply Z.leb_le in E1. lia. }
    destruct ((- Z.of_nat 8 <=? i) && (i <? 0))%Z eqn:E2.
    + f_equal. lia.
    + apply andb_false_iff in E2 as [E2|E2];
        [apply Z.leb_gt in E2|apply Z.ltb_ge in E2]; lia.
Qed.

(** *** The public interface does not raise *)

(** Property X2.  In any state the object can be in, every public operation
    returns: none of them runs into an [IndexError], a [TypeError] or an
    [AttributeError] of the facade's own making. *)
Theorem public_calls_return (script : list op) (o : op) :
  exists v s', call o (exec script init) = Ok v s'.
Proof.
  set (s := exec script init).
  assert (W : wf s) by apply wf_exec, wf_init.
  destruct o; simpl; unfold fmap_M, bind;
    try (eexists; eexists; reflexivity).
  - destruct (wf_pads _ W p) as [[Hp _]|(a & o & Hp & Ho & _)].
    + rewrite (touch_unbound _ _ W Hp). eexists; eexists; reflexivity.
    + rewrite (touch_bound _ _ _ _ W Hp Ho). eexists; eexists; reflexivity.
  - rewrite (adjust_returns s adjustment W). eexists; eexists; reflexivity.
  - rewrite detect_taps_set_eq. eexists; eexists; reflexivity.
Qed.

(** *** Pass-through operations *)

Lemma passthrough_state (o : op) (s : CircuitPlaygroundBase) :
  passthrough o = true ->
  exists evs,
    state_of (call o s)
    = mkCP (_touches s) (_touch_threshold_adjustment s) (_detect_taps s)
           (objects s) (calls s ++ evs)
    /\ Forall (fun e => configures e = false) evs.
Proof.
  intros Ho.
  assert (Hid : s = mkCP (_touches s) (_touch_threshold_adjustment s)
                         (_detect_taps s) (objects s) (calls s ++ [])).
  { rewrite app_nil_r. destruct s; reflexivity. }
  destruct o; try discriminate Ho; simpl; rewrite ?state_of_fmap;
    try (exists []; split; [exact Hid|constructor]);
    eexists [_]; split; try reflexivity; repeat constructor.
Qed.

(** Property X3.  An operation other than a touch read, a threshold
    adjustment or an assignment to [detect_taps] returns and leaves the slot
    list, the threshold accumulator, the stored tap-detection value and every
    [TouchIn] as they were; all it does is at most one driver call, which is
    never the construction of a [TouchIn] nor an accelerometer
    configuration. *)
Theorem passthrough_frame (o : op) (s : CircuitPlaygroundBase) :
  passthrough o = true ->
  exists v evs,
    call o s = Ok v (mkCP (_touches s) (_touch_threshold_adjustment s)
                          (_detect_taps s) (objects s) (calls s ++ evs))
    /\ length evs <= 1
    /\ Forall (fun e => configures e = false) evs.
Proof.
  intros Ho.
  assert (Hid : s = mkCP (_touches s) (_touch_threshold_adjustment s)
                         (_detect_taps s) (objects s) (calls s ++ [])).
  { rewrite app_nil_r. destruct s; reflexivity. }
  destruct o; try discriminate Ho; simpl; unfold fmap_M, bind;
    try (eexists; eexists [_]; split; [reflexivity|];
         split; [simpl; lia|repeat constructor]).
  - exists (RVal (_detect_taps s)), []. split; [|split; [simpl; lia|constructor]].
    unfold detect_taps_get, gets, ret. rewrite <- Hid. reflexivity.
  - exists RPixels, []. split; [|split; [simpl; lia|constructor]].
    unfold ret. rewrite <- Hid. reflexivity.
Qed.

(** *** The stored tap-detection value and the configuration history *)

Lemma detect_call o s :
  _detect_taps (state_of (call o s)) = last_assigned [o] (_detect_taps s).
Proof.
  destruct o; simpl; rewrite ?state_of_fmap; try reflexivity.
  - rewrite touch_eq. apply _touch_fields.
  - apply adjust_frame.
  - rewrite detect_taps_set_eq. simpl.
    destruct (py_eq value (PyInt 1)), (py_eq value (PyInt 2)); reflexivity.
Qed.

Lemma last_assigned_cons o script v :
  last_assigned (o :: script) v = last_assigned script (last_assigned [o] v).
Proof. destruct o; reflexivity. Qed.

Lemma detect_exec script s :
  _detect_taps (exec script s) = last_assigned script (_detect_taps s).
Proof.
  revert s. induction script as [|o script IH]; intros s; [reflexivity|].
  simpl exec. rewrite IH, detect_call, <- last_assigned_cons. reflexivity.
Qed.

(** Property X4.  Along any script run from the freshly constructed object,
    the [detect_taps] getter returns the value last assigned to the property,
    whatever was read, adjusted or polled since, and [1] when nothing was
    assigned; reading it changes nothing. *)
Theorem detect_taps_reads_last_assigned (script : list op) :
  let s := exec script init in
  detect_taps_get s = Ok (last_assigned script (PyInt 1)) s.
Proof.
  intros s. unfold detect_taps_get, gets. f_equal.
  unfold s. rewrite detect_exec. reflexivity.
Qed.

Lemma set_tap_calls_app h h' :
  set_tap_calls (h ++ h') = set_tap_calls h ++ set_tap_calls h'.
Proof.
  induction h as [|e h IH]; [reflexivity|].
  destruct e; simpl; rewrite IH; reflexivity.
Qed.

Lemma _touch_calls i s :
  exists evs, calls (state_of (_touch i s)) = calls s ++ evs
              /\ set_tap_calls evs = [].
Proof.
  destruct (py_index (length (_touches s)) i) as [k|] eqn:Hi.
  - destruct (_touches s !! k) as [[|q|a]|] eqn:Hk.
    + rewrite (_touch_none _ _ _ Hi Hk). exists []. rewrite app_nil_r. auto.
    + rewrite (_touch_unbound _ _ _ _ Hi Hk). eexists. split; reflexivity.
    + destruct (objects s !! a) as [o|] eqn:Ha.
      * rewrite (_touch_bound _ _ _ _ _ Hi Hk Ha). eexists. split; reflexivity.
      * rewrite (_touch_dangling _ _ _ _ Hi Hk Ha). exists [].
        rewrite app_nil_r. auto.
    + unfold _touch, bind, touches_getitem. rewrite Hi, Hk. exists [].
      rewrite app_nil_r. auto.
  - rewrite (_touch_index_error _ _ Hi). exists []. rewrite app_nil_r. auto.
Qed.

Lemma tap_config_set v s :
  calls (state_of (detect_taps_set v s)) = calls s ++ tap_config v.
Proof.
  rewrite detect_taps_set_eq. unfold tap_config.
  destruct (py_eq v (PyInt 1)) eqn:E1.
  - rewrite (py_eq_1_2 v E1). reflexivity.
  - destruct (py_eq v (PyInt 2)); simpl; [reflexivity|].
    rewrite app_nil_r. reflexivity.
Qed.

Lemma set_tap_calls_tap_config v : set_tap_calls (tap_config v) = tap_config v.
Proof.
  unfold tap_config.
  destruct (py_eq v (PyInt 1)); [reflexivity|].
  destruct (py_eq v (PyInt 2)); reflexivity.
Qed.

Lemma set_tap_calls_call o s :
  set_tap_calls (calls (state_of (call o s)))
  = set_tap_calls (calls s) ++ script_tap_configs [o].
Proof.
  destruct o; simpl; rewrite ?state_of_fmap, ?set_tap_calls_app, ?app_nil_r;
    try reflexivity.
  - rewrite touch_eq. destruct (_touch_calls (pad_index p) s) as (evs & -> & E).
    rewrite set_tap_calls_app, E, app_nil_r. reflexivity.
  - destruct (adjust_frame adjustment s) as (_ & _ & ->). reflexivity.
  - rewrite tap_config_set, set_tap_calls_app, set_tap_calls_tap_config.
    reflexivity.
Qed.

Lemma script_tap_configs_cons o script :
  script_tap_configs (o :: script)
  = script_tap_configs [o] ++ script_tap_configs script.
Proof. destruct o; simpl; rewrite ?app_nil_r; reflexivity. Qed.

Lemma set_tap_calls_exec script s :
  set_tap_calls (calls (exec script s))
  = set_tap_calls (calls s) ++ script_tap_configs script.
Proof.
  revert s. induction script as [|o script IH]; intros s.
  - simpl. rewrite app_nil_r. reflexivity.
  - simpl exec. rewrite IH, set_tap_calls_call, <- app_assoc.
    rewrite <- script_tap_configs_cons. reflexivity.
Qed.

(** Property X5.  The accelerometer's tap detection is configured by
    assignments to [detect_taps] and by nothing else.  Along any script run
    from the freshly constructed object, the [set_tap] calls issued are the
    single-tap one made by [__init__], followed, in order, by one call per
    assignment of a value equal to 1 (threshold 90, time limit 4) or equal to
    2 (threshold 60, time limit 10); an assignment never issues both, and no
    other operation issues any. *)
Theorem set_tap_history (script : list op) :
  set_tap_calls (calls (exec script init))
  = EvSetTap (PyInt 1) 90 4 50 255 :: script_tap_configs script.
Proof. rewrite set_tap_calls_exec. reflexivity. Qed.

(** *** Adjustments as a group action on the state *)

Lemma adjust_compose s d1 d2 :
  wf s ->
  state_of (adjust_touch_threshold d2 (state_of (adjust_touch_threshold d1 s)))
  = state_of (adjust_touch_threshold (d1 + d2) s).
Proof.
  intros W.
  pose proof (wf_adjust s d1 W) as W1.
  destruct (adjust_touch_threshold_wf s d1 W) as (o1 & R1 & L1 & G1).
  rewrite R1 in W1 |- *. simpl in W1 |- *.
  destruct (adjust_touch_threshold_wf _ d2 W1) as (o2 & R2 & L2 & G2).
  destruct (adjust_touch_threshold_wf s (d1 + d2) W) as (o12 & R12 & L12 & G12).
  rewrite R2, R12. simpl in *. f_equal; [lia|].
  apply list_eq. intros a. destruct (objects s !! a) as [o|] eqn:Ha.
  - rewrite (G12 a o Ha), (G2 a _ (G1 a o Ha)). simpl. f_equal. f_equal. ring.
  - apply lookup_ge_None in Ha.
    rewrite (proj2 (lookup_ge_None o2 a)), (proj2 (lookup_ge_None o12 a)) by lia.
    reflexivity.
Qed.

Lemma adjust_zero s :
  wf s -> state_of (adjust_touch_threshold 0 s) = s.
Proof.
  intros W.
  destruct (adjust_touch_threshold_wf s 0 W) as (o0 & R0 & L0 & G0).
  rewrite R0. simpl. destruct s as [t acc det objs h]. simpl in *.
  f_equal; [lia|].
  apply list_eq. intros a. destruct (objs !! a) as [o|] eqn:Ha.
  - rewrite (G0 a o Ha), Z.mul_0_l, Z.add_0_r, TouchIn_eta. reflexivity.
  - apply lookup_ge_None in Ha. apply lookup_ge_None. lia.
Qed.

(** Property X6.  In any state the object can be in, threshold adjustments
    compose on the whole state, not only on one pad's threshold: adjusting by
    [d1] and then by [d2] leaves exactly the state that adjusting once by
    [d1 + d2] leaves, so the order of two adjustments does not matter,
    adjusting by 0 changes nothing, and adjusting by [d] and then by [-d]
    restores the state, every threshold and the accumulator included. *)
Theorem adjust_composes (script : list op) (d1 d2 : Z) :
  let s := exec script init in
  let adj d st := state_of (adjust_touch_threshold d st) in
  adj d2 (adj d1 s) = adj (d1 + d2)%Z s
  /\ adj d2 (adj d1 s) = adj d1 (adj d2 s)
  /\ adj 0%Z s = s
  /\ adj (- d1)%Z (adj d1 s) = s.
Proof.
  intros s adj. assert (W : wf s) by apply wf_exec, wf_init.
  unfold adj. split; [|split; [|split]].
  - apply adjust_compose, W.
  - rewrite !adjust_compose by exact W. rewrite (Z.add_comm d1 d2). reflexivity.
  - apply adjust_zero, W.
  - rewrite adjust_compose by exact W. rewrite Z.add_opp_diag_r.
    apply adjust_zero, W.
Qed.

(** *** Where a bound threshold comes from *)

Lemma tracked_extend s s' evs :
  _touches s' = _touches s ->
  _touch_threshold_adjustment s' = _touch_threshold_adjustment s ->
  objects s' = objects s ->
  calls s' = calls s ++ evs ->
  thresholds_tracked s -> thresholds_tracked s'.
Proof.
  intros Ht Hacc Ho Hc P p a o Hp Ha.
  unfold slot_of in Hp. rewrite Ht in Hp. rewrite Ho in Ha.
  destruct (P p a o Hp Ha) as (h & rest & Hh & Hthr).
  exists h, (rest ++ evs). rewrite Hc, Hh, Hacc, <- app_assoc.
  split; [reflexivity|exact Hthr].
Qed.

Lemma tracked_touch s p :
  wf s -> thresholds_tracked s -> thresholds_tracked (state_of (touch p s)).
Proof.
  intros W P. destruct (wf_pads _ W p) as [[Hp _]|(a & o & Hp & Ho & _)].
  - rewrite (touch_unbound _ _ W Hp). simpl.
    intros p' a' o' Hp' Ha'. unfold slot_of in Hp'. simpl in Hp', Ha' |- *.
    apply lookup_insert_cases in Hp' as [[E Hnew]|[Hne Hold]].
    + apply pad_slot_inj in E as ->. injection Hnew as ->.
      rewrite list_lookup_middle in Ha' by reflexivity. injection Ha' as <-.
      exists (calls s), [EvTouchInValue (length (objects s))].
      split; reflexivity.
    + rewrite lookup_app_l in Ha' by (eapply (wf_ref _ W), Hold).
      destruct (P p' a' o' Hold Ha') as (h & rest & Hh & Hthr).
      exists h, (rest ++ [EvTouchInNew (pad_pin p);
                          EvTouchInValue (length (objects s))]).
      rewrite Hh, <- app_assoc. split; [reflexivity|exact Hthr].
  - rewrite (touch_bound _ _ _ _ W Hp Ho). simpl.
    revert P. apply (tracked_extend s _ [EvTouchInValue a]); reflexivity.
Qed.

Lemma tracked_adjust s d :
  wf s -> thresholds_tracked s ->
  thresholds_tracked (state_of (adjust_touch_threshold d s)).
Proof.
  intros W P.
  destruct (adjust_touch_threshold_wf s d W) as (objs & Hrun & Hlen & Hget).
  rewrite Hrun. simpl. intros p a o' Hp Ha. unfold slot_of in Hp.
  simpl in Hp, Ha |- *.
  destruct (lookup_lt_is_Some_2 _ _ (wf_ref _ W _ _ Hp)) as [o Ho].
  rewrite (Hget a o Ho) in Ha. injection Ha as <-.
  rewrite (count_ref_unique a (_touches s) _ Hp)
    by (intros j Hj; apply (wf_inj _ W j _ a Hj Hp)).
  destruct (P p a o Hp Ho) as (h & rest & Hh & Hthr).
  exists h, rest. split; [exact Hh|]. simpl. rewrite Hthr. lia.
Qed.

Lemma tracked_call s o :
  wf s -> thresholds_tracked s -> thresholds_tracked (state_of (call o s)).
Proof.
  intros W P.
  destruct (passthrough o) eqn:Hpass.
  - destruct (passthrough_state o s Hpass) as (evs & -> & _).
    revert P. apply (tracked_extend s _ evs); reflexivity.
  - destruct o; try discriminate Hpass; simpl; rewrite state_of_fmap.
    + apply tracked_touch; assumption.
    + apply tracked_adjust; assumption.
    + revert P. apply (tracked_extend s _ (tap_config value));
        try apply tap_config_set;
        rewrite detect_taps_set_eq; simpl;
        destruct (py_eq value (PyInt 1)), (py_eq value (PyInt 2)); reflexivity.
Qed.

Lemma tracked_exec script s :
  wf s -> thresholds_tracked s -> thresholds_tracked (exec script s).
Proof.
  revert s. induction script as [|o script IH]; intros s W P; [exact P|].
  simpl. apply IH; [apply wf_call, W|apply tracked_call; assumption].
Qed.

Lemma tracked_init : thresholds_tracked init.
Proof. intros p a o Hp. destruct p; discriminate Hp. Qed.

(** Property X7.  Along any script run from the freshly constructed object
    that reads pad [p], the pad's threshold is the initial threshold its
    driver had when the [TouchIn] was constructed, plus the sum of all
    adjustments of the script, those made before the first read and those
    made after it alike. *)
Theorem bound_threshold_tracks (script : list op) (p : pad) :
  reads_pad p script = true ->
  let s := exec script init in
  exists h rest,
    calls s = h ++ EvTouchInNew (pad_pin p) :: rest
    /\ bound_threshold s p
       = Some (touchin_initial_threshold (pad_pin p) h + adjustments script)%Z.
Proof.
  intros Hr s.
  assert (W : wf s) by apply wf_exec, wf_init.
  assert (P : thresholds_tracked s)
    by (apply tracked_exec; [apply wf_init|apply tracked_init]).
  pose proof (exec_reads script init p wf_init) as Hb. rewrite Hr in Hb.
  destruct Hb as [a Ha]. fold s in Ha.
  destruct (lookup_lt_is_Some_2 _ _ (wf_ref _ W _ _ Ha)) as [o Ho].
  destruct (P p a o Ha Ho) as (h & rest & Hh & Hthr).
  exists h, rest. split; [exact Hh|].
  unfold bound_threshold, threshold_at. unfold slot_of in Ha.
  rewrite Ha, Ho. simpl. rewrite Hthr. unfold s at 1.
  rewrite (accumulator_exec script init wf_init). reflexivity.
Qed.

(** *** How many drivers are constructed *)

Lemma touchin_constructions_app h h' :
  touchin_constructions (h ++ h')
  = touchin_constructions h + touchin_constructions h'.
Proof.
  induction h as [|e h IH]; [reflexivity|].
  destruct e; simpl; rewrite IH; reflexivity.
Qed.

Lemma touchin_constructions_sum h :
  touchin_constructions h
  = constructions A1 h + constructions A2 h + constructions A3 h
    + constructions A4 h + constructions A5 h + constructions A6 h
    + constructions TX h.
Proof.
  induction h as [|e h IH]; [reflexivity|].
  destruct e as [q| | | | | | | | | | |]; try exact IH.
  destruct q; simpl; rewrite IH; lia.
Qed.

Lemma quiet_events evs :
  Forall (fun e => configures e = false) evs -> touchin_constructions evs = 0.
Proof.
  induction 1 as [|e evs He _ IH]; [reflexivity|].
  destruct e; try discriminate He; exact IH.
Qed.

Lemma tap_config_quiet v : touchin_constructions (tap_config v) = 0.
Proof.
  unfold tap_config.
  destruct (py_eq v (PyInt 1)); [reflexivity|].
  destruct (py_eq v (PyInt 2)); reflexivity.
Qed.

Lemma store_size_call s o :
  wf s ->
  length (objects s) = touchin_constructions (calls s) ->
  length (objects (state_of (call o s)))
  = touchin_constructions (calls (state_of (call o s))).
Proof.
  intros W Hs. destruct (passthrough o) eqn:Hpass.
  - destruct (passthrough_state o s Hpass) as (evs & -> & Hq). simpl.
    rewrite touchin_constructions_app, (quiet_events evs Hq). lia.
  - destruct o; try discriminate Hpass; simpl; rewrite state_of_fmap.
    + destruct (wf_pads _ W p) as [[Hp _]|(a & o & Hp & Ho & _)].
      * rewrite (touch_unbound _ _ W Hp). simpl.
        rewrite length_app, touchin_constructions_app. simpl. lia.
      * rewrite (touch_bound _ _ _ _ W Hp Ho). simpl.
        rewrite touchin_constructions_app. simpl. lia.
    + destruct (adjust_touch_threshold_wf s adjustment W) as (objs & -> & Hlen & _).
      simpl. lia.
    + rewrite tap_config_set, touchin_constructions_app, tap_config_quiet.
      rewrite detect_taps_set_eq. simpl.
      destruct (py_eq value (PyInt 1)), (py_eq value (PyInt 2)); simpl; lia.
Qed.

Lemma store_size_exec script s :
  wf s ->
  length (objects s) = touchin_constructions (calls s) ->
  length (objects (exec script s))
  = touchin_constructions (calls (exec script s)).
Proof.
  revert s. induction script as [|o script IH]; intros s W Hs; [exact Hs|].
  simpl. apply IH; [apply wf_call, W|apply store_size_call; assumption].
Qed.

Lemma constructions_reads script p :
  constructions (pad_pin p) (calls (exec script init))
  = if reads_pad p script then 1 else 0.
Proof.
  assert (W : wf (exec script init)) by apply wf_exec, wf_init.
  pose proof (exec_reads script init p wf_init) as Hr.
  destruct (reads_pad p script).
  - destruct Hr as [a Ha].
    destruct (wf_pads _ W p) as [[Hp _]|(a' & o & _ & _ & _ & Hn)];
      [congruence|exact Hn].
  - destruct (wf_pads _ W p) as [[_ Hn]|(a' & o & Hp & _)]; [exact Hn|].
    rewrite Hr in Hp. destruct p; discriminate Hp.
Qed.

(** Property X8.  Along any script run from the freshly constructed object,
    the number of [TouchIn] objects that exist, which is the number of
    [touchio.TouchIn] constructions issued, is the number of different pads
    the script reads: a pad that is never read costs no driver, and there
    are never more than seven. *)
Theorem touchin_objects_count (script : list op) :
  let s := exec script init in
  length (objects s) = pads_read script
  /\ touchin_constructions (calls s) = pads_read script
  /\ pads_read script <= 7.
Proof.
  intros s.
  assert (Hsize : length (objects s) = touchin_constructions (calls s))
    by (apply store_size_exec; [apply wf_init|reflexivity]).
  assert (Hcount : touchin_constructions (calls s) = pads_read script).
  { rewrite touchin_constructions_sum. unfold s.
    rewrite (constructions_reads script PadA1 : constructions A1 _ = _),
      (constructions_reads script PadA2 : constructions A2 _ = _),
      (constructions_reads script PadA3 : constructions A3 _ = _),
      (constructions_reads script PadA4 : constructions A4 _ = _),
      (constructions_reads script PadA5 : constructions A5 _ = _),
      (constructions_reads script PadA6 : constructions A6 _ = _),
      (constructions_reads script PadTX : constructions TX _ = _).
    unfold pads_read, all_pads. simpl.
    destruct (reads_pad PadA1 script), (reads_pad PadA2 script),
      (reads_pad PadA3 script), (reads_pad PadA4 script),
      (reads_pad PadA5 script), (reads_pad PadA6 script),
      (reads_pad PadTX script); reflexivity. }
  split; [congruence|]. split; [exact Hcount|].
  unfold pads_read, all_pads. simpl.
  destruct (reads_pad PadA1 script), (reads_pad PadA2 script),
    (reads_pad PadA3 script), (reads_pad PadA4 script),
    (reads_pad PadA5 script), (reads_pad PadA6 script),
    (reads_pad PadTX script); simpl; lia.
Qed.

(** *** Ranges of the derived values *)

(** Property X9.  On the samples a 16-bit analog input delivers, the light
    level grows with the sample and stays between 0 and 329: the scale never
    reaches 330. *)
Theorem light_range (r1 r2 : Z) :
  (0 <= r1 <= r2)%Z -> (r2 < 65536)%Z ->
  (0 <= Photocell_light r1 <= Photocell_light r2)%Z
  /\ (Photocell_light r2 <= 329)%Z.
Proof.
  intros H1 H2. unfold Photocell_light. change (2 ^ 16)%Z with 65536%Z.
  split; [split|].
  - apply Z.div_pos; lia.
  - apply Z.div_le_mono; lia.
  - change 329%Z with (65535 * 330 / 65536)%Z. apply Z.div_le_mono; lia.
Qed.

(** Property X10.  [were_pressed] looks at the two lowest bits of the polled
    bitmask only: any other bit the poller may set changes nothing, and the
    set returned holds no name other than ["A"] and ["B"]. *)
Theorem were_pressed_low_bits (pressed : Z) :
  decode_pressed (Z.land pressed 3) = decode_pressed pressed
  /\ decode_pressed pressed ⊆ {[ "A"; "B" ]}.
Proof.
  split.
  - rewrite !decode_pressed_eq, !Z.land_spec.
    change (Z.testbit 3 0) with true. change (Z.testbit 3 1) with true.
    rewrite !andb_true_r. reflexivity.
  - intros b. rewrite decode_pressed_eq, !elem_of_union.
    destruct (Z.testbit pressed 0), (Z.testbit pressed 1);
      rewrite ?elem_of_singleton, ?elem_of_empty; tauto.
Qed.

(** *** Pads and their drivers *)

(** Property X11.  In any state the object can be in, a slot that refers to
    a [TouchIn] refers to one that exists and was built from that pad's own
    pin, and no other pad's slot refers to the same object: an adjustment,
    which walks the list, therefore meets every driver once. *)
Theorem slots_own_their_drivers (script : list op) (p : pad) (a : nat) :
  let s := exec script init in
  slot_of s p = Some (SlotTouchIn a) ->
  (exists o, objects s !! a = Some o /\ ti_pin o = pad_pin p)
  /\ (forall p', slot_of s p' = Some (SlotTouchIn a) -> p' = p)
  /\ count_ref a (_touches s) = 1%Z.
Proof.
  intros s Hp. assert (W : wf s) by apply wf_exec, wf_init.
  split; [|split].
  - destruct (wf_pads _ W p) as [[Hq _]|(a' & o & Hq & Ho & Hpin & _)];
      [congruence|].
    assert (a' = a) as -> by congruence. eauto.
  - intros p' Hp'. apply pad_slot_inj. apply (wf_inj _ W _ _ a Hp' Hp).
  - apply (count_ref_unique a (_touches s) (pad_slot p) Hp).
    intros j Hj. apply (wf_inj _ W j _ a Hj Hp).
Qed.

End Properties.

(** * The statements at concrete inputs, on the [bench] drivers *)

Lemma adjust_touch_threshold_spec_witness :
  slot_of
    (exec (HW := bench) [OpAdjustTouchThreshold 50]
       (state_of (adjust_touch_threshold 200 init))) PadA1
  = Some (SlotPin A1)
  /\ bound_threshold
       (state_of
          (touch (HW := bench) PadA1
             (exec (HW := bench) [OpAdjustTouchThreshold 50]
                (state_of (adjust_touch_threshold 200 init)))))
       PadA1
     = Some 1350%Z
  /\ none_bound init
  /\ state_of (adjust_touch_threshold 200 init)
     = set_adjustment 200 init.
Proof.
  destruct (adjust_touch_threshold_spec (HW := bench) [] 200)
    as (_ & _ & _ & _ & _ & _ & Hlater & Hnone).
  assert (Hn : none_bound init) by (repeat constructor).
  split; [reflexivity|].
  split; [exact (Hlater [OpAdjustTouchThreshold 50] PadA1 eq_refl)|].
  split; [exact Hn|].
  exact (Hnone Hn).
Defined.

Lemma bound_never_reverts_witness :
  slot_of (exec (HW := bench) [OpTouch PadA3] init) PadA3
  = Some (SlotTouchIn 0)
  /\ slot_of
       (exec (HW := bench)
          [OpAdjustTouchThreshold 10; OpTouch PadA1;
           OpDetectTapsSet (PyInt 2); OpTouch PadA3; OpLight]
          (exec (HW := bench) [OpTouch PadA3] init)) PadA3
     = Some (SlotTouchIn 0).
Proof.
  split; [reflexivity|].
  apply (proj1 (bound_never_reverts (HW := bench) PadA3)). reflexivity.
Defined.

Lemma detect_taps_set_other_witness :
  py_eq (PyInt 3) (PyInt 1) = false
  /\ py_eq (PyInt 3) (PyInt 2) = false
  /\ detect_taps_set (PyInt 3) init = Ok tt (set_detect (PyInt 3) init)
  /\ detect_taps_get (set_detect (PyInt 3) init)
     = Ok (PyInt 3) (set_detect (PyInt 3) init)
  /\ calls (state_of (detect_taps_set (PyInt 3) init)) = calls init.
Proof.
  split; [reflexivity|]. split; [reflexivity|].
  apply (detect_taps_set_other (PyInt 3) init); reflexivity.
Defined.

Lemma touch_slot_table_safe_witness :
  (1 <= 3 <= 7)%Z
  /\ is_Some (value_of (_touch (HW := bench) 3
                          (exec (HW := bench) [OpTouch PadA1] init))).
Proof.
  assert (H3 : (1 <= 3 <= 7)%Z) by lia.
  split; [exact H3|].
  destruct (touch_slot_table_safe (HW := bench) [OpTouch PadA1] 3 H3)
    as (k & x & _ & _ & _ & _ & _ & Hval & _).
  exact Hval.
Defined.

Lemma touch_frame_witness :
  (1 <= 1 <= 7)%Z /\ (1 <= 2 <= 7)%Z /\ (1 <> 2)%Z
  /\ threshold_at
       (state_of (_touch (HW := bench) 1
                    (exec (HW := bench)
                       [OpAdjustTouchThreshold 5; OpTouch PadA2] init)))
       (Z.to_nat 2)
     = threshold_at
         (exec (HW := bench) [OpAdjustTouchThreshold 5; OpTouch PadA2] init)
         (Z.to_nat 2).
Proof.
  assert (H1 : (1 <= 1 <= 7)%Z) by lia.
  assert (H2 : (1 <= 2 <= 7)%Z) by lia.
  assert (H12 : (1 <> 2)%Z) by lia.
  split; [exact H1|]. split; [exact H2|]. split; [exact H12|].
  apply (touch_frame
           [OpAdjustTouchThreshold 5; OpTouch PadA2] 1 2 H1 H2 H12).
Defined.

Lemma touch_index_edges_witness :
  (-8 <= -1 < 0)%Z
  /\ _touch (HW := bench) (-1) init = _touch (HW := bench) 7 init
  /\ (9 < -8 \/ 8 <= 9)%Z
  /\ _touch (HW := bench) 9 init = Raise IndexError init
  /\ _touch (HW := bench) 0 init = Raise TypeError init.
Proof.
  assert (Hneg : (-8 <= -1 < 0)%Z) by lia.
  assert (Hbig : (9 < -8 \/ 8 <= 9)%Z) by lia.
  split; [exact Hneg|].
  split; [exact (proj2 (proj2 (touch_index_edges (HW := bench) [] (-1))) Hneg)|].
  split; [exact Hbig|].
  split; [exact (proj1 (proj2 (touch_index_edges (HW := bench) [] 9)) Hbig)|].
  exact (proj1 (touch_index_edges (HW := bench) [] 0) eq_refl).
Defined.

Lemma passthrough_frame_witness :
  passthrough OpLight = true
  /\ exists v evs,
       call (HW := bench) OpLight init
       = Ok v (mkCP (_touches init) (_touch_threshold_adjustment init)
                    (_detect_taps init) (objects init) (calls init ++ evs))
       /\ length evs <= 1
       /\ Forall (fun e => configures e = false) evs.
Proof.
  split; [reflexivity|].
  apply (passthrough_frame (HW := bench) OpLight init). reflexivity.
Defined.

Lemma bound_threshold_tracks_witness :
  reads_pad PadA1
    [OpAdjustTouchThreshold 5; OpTouch PadA1; OpAdjustTouchThreshold 7] = true
  /\ bound_threshold
       (exec (HW := bench)
          [OpAdjustTouchThreshold 5; OpTouch PadA1; OpAdjustTouchThreshold 7]
          init) PadA1
     = Some 1112%Z.
Proof.
  split; [reflexivity|].
  destruct (bound_threshold_tracks (HW := bench)
              [OpAdjustTouchThreshold 5; OpTouch PadA1; OpAdjustTouchThreshold 7]
              PadA1 eq_refl) as (h & rest & _ & Hthr).
  exact Hthr.
Defined.

Lemma light_range_witness :
  (0 <= 1000 <= 65535)%Z /\ (65535 < 65536)%Z
  /\ (0 <= Photocell_light 1000 <= Photocell_light 65535)%Z
  /\ (Photocell_light 65535 <= 329)%Z.
Proof.
  assert (H1 : (0 <= 1000 <= 65535)%Z) by lia.
  assert (H2 : (65535 < 65536)%Z) by lia.
  split; [exact H1|]. split; [exact H2|].
  apply (light_range 1000 65535 H1 H2).
Defined.

Lemma slots_own_their_drivers_witness :
  slot_of (exec (HW := bench) [OpTouch PadA2; OpTouch PadA5] init) PadA5
  = Some (SlotTouchIn 1)
  /\ count_ref 1
       (_touches (exec (HW := bench) [OpTouch PadA2; OpTouch PadA5] init))
     = 1%Z.
Proof.
  split; [reflexivity|].
  apply (slots_own_their_drivers (HW := bench)
           [OpTouch PadA2; OpTouch PadA5] PadA5 1 eq_refl).
Defined.
